(** * DiffText: the animated text-diff component

    A shallow embedding of the React component [DiffText] and of its two
    animators [TypewriterText] and [FadeOutText], together with the part of
    the host runtime (React's reconciliation of keyed children and effect
    cleanup, the animation frame loop behind [animate]) that the component's
    behaviour over time depends on.

    Conventions.
    - A JavaScript string is a sequence of UTF-16 code units; here a [text]
      is a list of characters and [length] is [text.length].
    - A JavaScript number holding a time or a duration is a rational [Q], in
      seconds, so that the literals 0.04, 0.3, 0.5 and 1.5 of the source are
      exact; the rounding of the doubles the code computes with is not
      modelled.
    - [Set<number>] is [gset nat]. *)

From Stdlib Require Import Ascii String QArith Qround Qminmax Lqa.
From stdpp Require Import gmap list strings.

Local Open Scope list_scope.

(** ** Texts *)

Abbreviation text := (list ascii).

Definition txt (s : string) : text := list_ascii_of_string s.

(** ** The diff computation *)

Module Diff.

(** The three classes of a change object: neither flag, [added], [removed]. *)
Inductive kind := Unchanged | Added | Removed.

#[global] Instance kind_eq_dec : EqDecision kind.
Proof. solve_decision. Defined.

(** A change object of the [diff] package, with the fields the component
    reads: [part.value], [part.added], [part.removed]. *)
Record Change := mkChange { value : text; added : bool; removed : bool }.

#[global] Instance Change_eq_dec : EqDecision Change.
Proof. solve_decision. Defined.

(** The class of a part, in the order in which the component tests the
    flags ([if (part.added) ... else if (part.removed) ... else ...]). *)
Definition kind_of (c : Change) : kind :=
  if added c then Added else if removed c then Removed else Unchanged.

Definition change_of (e : kind * text) : Change :=
  {| value := e.2;
     added := bool_decide (e.1 = Added);
     removed := bool_decide (e.1 = Removed) |}.

(** The text a sequence of parts stands for on the old side (every part
    that is not an addition) and on the new side (every part that is not a
    removal). *)
Definition old_side (cs : list Change) : text :=
  concat (value <$> filter (λ c, kind_of c ≠ Added) cs).

Definition new_side (cs : list Change) : text :=
  concat (value <$> filter (λ c, kind_of c ≠ Removed) cs).

Inductive mode := Words | Chars.

(** *** Tokens *)

Inductive cclass := CWord | CSpace | CPunct.

#[global] Instance cclass_eq_dec : EqDecision cclass.
Proof. solve_decision. Defined.

Definition is_space (c : ascii) : bool :=
  let n := nat_of_ascii c in (n =? 32) || ((9 <=? n) && (n <=? 13)).

Definition is_word_char (c : ascii) : bool :=
  let n := nat_of_ascii c in
  ((48 <=? n) && (n <=? 57)) || ((65 <=? n) && (n <=? 90))
  || ((97 <=? n) && (n <=? 122)) || (n =? 95) || (128 <=? n).

Definition classify (c : ascii) : cclass :=
  if is_space c then CSpace else if is_word_char c then CWord else CPunct.

(** Two neighbouring characters stay in one token when both are word
    characters or both are white space; a punctuation character is a token
    of its own. *)
Definition joins (c d : ascii) : bool :=
  bool_decide (classify c = classify d) && negb (bool_decide (classify c = CPunct)).

(** Modelled from the spec: the tokenizer of the word mode of the [diff]
    package, which is not part of the sources.  Section 4.1: word mode
    "tokenizes at word granularity (whitespace/punctuation-aware
    boundaries)". *)
Fixpoint tokenize_words (s : text) : list text :=
  match s with
  | [] => []
  | c :: s' =>
      match tokenize_words s' with
      | (d :: tok) :: rest =>
          if joins c d then (c :: d :: tok) :: rest else [c] :: (d :: tok) :: rest
      | toks => [c] :: toks
      end
  end.

(** Modelled from the spec: the tokenizer of the character mode of the
    [diff] package.  Section 4.1: character mode "tokenizes both strings at
    the character granularity". *)
Definition tokenize_chars (s : text) : list text := (λ c, [c]) <$> s.

(** *** Edit scripts *)

Abbreviation script := (list (kind * text)).

(** The number of tokens an edit script keeps. *)
Definition common (es : script) : nat :=
  length (filter (λ e, e.1 = Unchanged) es).

(** The character mode keeps a token when the two sides have the same
    token. *)
Definition same_char (x y : text) : bool := bool_decide (x = y).

(** A token of white space. *)
Definition is_blank (t : text) : bool := forallb is_space t.

(** Modelled from the spec: when the word mode of the [diff] package, which
    is not part of the sources, takes two tokens for the same.  Section 4.1
    says that the boundaries are "whitespace/punctuation-aware" and no
    more; the package documents that [diffWords] ignores white space when it
    compares: two runs of white space count as the same token whatever
    they are made of. *)
Definition same_word (x y : text) : bool :=
  bool_decide (x = y) || (is_blank x && is_blank y).

(** Modelled from the spec: the comparison of two token sequences by the
    [diff] package.  Section 4.1: "a minimal-edit-distance style sequence of
    Unchanged/Added/Removed segments (longest-common-subsequence-based
    diff)".  Heads that count as the same are kept, with the text of the
    new side, as the package does; otherwise the script that keeps more
    tokens wins, and a removal goes before an addition when both keep as
    many. *)
Fixpoint lcs_diff (same : text → text → bool) (xs ys : list text) {struct xs} : script :=
  match xs with
  | [] => pair Added <$> ys
  | x :: xs' =>
      (fix go (ys : list text) : script :=
         match ys with
         | [] => pair Removed <$> (x :: xs')
         | y :: ys' =>
             if same x y then (Unchanged, y) :: lcs_diff same xs' ys'
             else
               let del := (Removed, x) :: lcs_diff same xs' (y :: ys') in
               let ins := (Added, y) :: go ys' in
               if common ins <=? common del then del else ins
         end) ys
  end.

(** Neighbouring tokens of one class are joined into one segment. *)
Fixpoint merge (es : script) : script :=
  match es with
  | [] => []
  | (k, t) :: es' =>
      match merge es' with
      | (k', v) :: rest =>
          if bool_decide (k = k') then (k, t ++ v) :: rest
          else (k, t) :: (k', v) :: rest
      | [] => [(k, t)]
      end
  end.

Definition diff_tokens (same : text → text → bool) (tokenize : text → list text)
    (oldStr newStr : text) : list Change :=
  change_of <$> merge (lcs_diff same (tokenize oldStr) (tokenize newStr)).

(** Modelled from the spec: [diffChars] of the [diff] package (section 4.1,
    [compute] with [mode = Chars]). *)
Definition diffChars : text → text → list Change :=
  diff_tokens same_char tokenize_chars.

(** Modelled from the spec: [diffWords] of the [diff] package (section 4.1,
    [compute] with [mode = Words]); white space is ignored in the
    comparison and a part that is kept shows the white space of the new
    text. *)
Definition diffWords : text → text → list Change :=
  diff_tokens same_word tokenize_words.

(** [const diffFunction = diffMode === 'chars' ? diffChars : diffWords;
     const changes = diffFunction(oldText, newText);] *)
Definition diffFunction (diffMode : mode) : text → text → list Change :=
  match diffMode with Chars => diffChars | Words => diffWords end.

End Diff.

(** ** The component *)

Module Component.
Import Diff.

(** [interface DiffTextProps]: the two texts are required, the other
    properties are optional and get their defaults when the component
    destructures its argument. *)
Record DiffTextProps := mkProps {
  oldText : text;
  newText : text;
  diffMode : option mode;
  showRemoved : option bool;
  animateChanges : option bool;
  className : option string }.

Definition diffMode_of (p : DiffTextProps) : mode := default Words (diffMode p).
Definition showRemoved_of (p : DiffTextProps) : bool := default true (showRemoved p).
Definition animateChanges_of (p : DiffTextProps) : bool := default true (animateChanges p).
Definition className_of (p : DiffTextProps) : string := default EmptyString (className p).

(** The keys [`added-${index}`], [`removed-${index}`], [`unchanged-${index}`]. *)
Inductive key := KAdded (index : nat) | KRemoved (index : nat) | KUnchanged (index : nat).

#[global] Instance key_eq_dec : EqDecision key.
Proof. solve_decision. Defined.

(** An inline [style] object, as a list of property and value. *)
Abbreviation style := (list (string * string)).

Definition added_style : style :=
  [("backgroundColor", "rgba(34, 197, 94, 0.15)"); ("color", "rgb(34, 197, 94)");
   ("borderRadius", "2px"); ("padding", "0 2px")]%string.

Definition removed_style : style :=
  [("backgroundColor", "rgba(239, 68, 68, 0.15)"); ("color", "rgba(239, 68, 68, 0.7)");
   ("borderRadius", "2px"); ("padding", "0 2px"); ("textDecoration", "line-through")]%string.

(** What [DiffText] returns for one part: one of its two animators or a
    plain [span].  The closure [() => handleRemoveComplete(index)] is
    written as the index it is bound to. *)
Inductive element :=
| TypewriterText (text : text) (color backgroundColor : string)
| FadeOutText (text : text) (onComplete : option nat)
| Span (st : style) (text : text).

#[global] Instance element_eq_dec : EqDecision element.
Proof. solve_decision. Defined.

(** The body of [changes.map((part, index) => ...)]; [None] is [null]. *)
Definition render_part (showRemoved animateChanges : bool) (removedParts : gset nat)
    (index : nat) (part : Change) : option (key * element) :=
  if removed part && bool_decide (index ∈ removedParts) then None
  else if added part then
    Some (KAdded index,
          if animateChanges
          then TypewriterText (value part) "rgb(34, 197, 94)" "rgba(34, 197, 94, 0.15)"
          else Span added_style (value part))
  else if removed part then
    if negb showRemoved then None
    else
      Some (KRemoved index,
            if animateChanges
            then FadeOutText (value part) (Some index)
            else Span removed_style (value part))
  else Some (KUnchanged index, Span [] (value part)).

Definition render_changes (showRemoved animateChanges : bool) (removedParts : gset nat)
    (changes : list Change) : list (option (key * element)) :=
  imap (render_part showRemoved animateChanges removedParts) changes.

Definition changes_of (p : DiffTextProps) : list Change :=
  diffFunction (diffMode_of p) (oldText p) (newText p).

(** One render of [DiffText] with the current value of the state
    [removedParts]. *)
Definition DiffText (p : DiffTextProps) (removedParts : gset nat)
  : list (option (key * element)) :=
  render_changes (showRemoved_of p) (animateChanges_of p) removedParts (changes_of p).

(** [setRemovedParts((prev) => new Set(prev).add(index))]: the updater. *)
Definition handleRemoveComplete (index : nat) (prev : gset nat) : gset nat :=
  {[index]} ∪ prev.

(** *** Untyped callers

    The values a caller that ignores the property types can pass for a
    text. *)
Inductive jsval := JUndefined | JNull | JString (s : text).

Inductive outcome (A : Type) := Returned (a : A) | Thrown (error : string).
Arguments Returned {A} a.
Arguments Thrown {A} error.

(** The arguments of the call [diffFunction(oldText, newText)]: the two
    properties as they came in; the destructuring gives them no default. *)
Definition diff_arguments (oldText newText : jsval) : jsval * jsval :=
  (oldText, newText).

(** Modelled from the spec: what the functions of the [diff] package, which
    is not part of the sources, do with a value that is not a string.
    Section 7 allows for a "diff computation failure (should not occur for
    string inputs)" that propagates to the host; a tokenizer calls a string
    method on its argument, which raises a TypeError on [null] and
    [undefined]. *)
Definition diff_call (m : mode) (args : jsval * jsval) : outcome (list Change) :=
  match args with
  | (JString a, JString b) => Returned (diffFunction m a b)
  | _ => Thrown "TypeError"
  end.

(** One render of [DiffText] when the two texts are arbitrary values. *)
Definition DiffText_untyped (oldText newText : jsval) (diffMode : option mode)
    (showRemoved animateChanges : option bool) (removedParts : gset nat)
  : outcome (list (option (key * element))) :=
  match diff_call (default Words diffMode) (diff_arguments oldText newText) with
  | Returned changes =>
      Returned (render_changes (default true showRemoved) (default true animateChanges)
                  removedParts changes)
  | Thrown e => Thrown e
  end.

End Component.

(** ** The animators *)

Module Animator.

(** [text.slice(0, e)] for an integer [e]: a negative end counts from the
    end of the text, an end beyond the text stops at its end. *)
Definition slice0 (s : text) (e : Z) : text :=
  let len := Z.of_nat (length s) in
  take (Z.to_nat (if (e <? 0)%Z then Z.max (len + e) 0 else Z.min e len)) s.

(** [text.length] as a number. *)
Definition length_of (s : text) : Q := inject_Z (Z.of_nat (length s)).

(** [Math.max(0.5, Math.min(1.5, text.length * 0.04))], with the numbers
    taken as exact rationals; the code computes in doubles, whose product
    can differ from the exact one in its last place. *)
Definition reveal_duration (s : text) : Q :=
  Qmax 0.5 (Qmin 1.5 (length_of s * 0.04)).

(** Modelled from the spec: the clock of [animate] of the [motion] package,
    which is not part of the sources.  Section 4.3: "progress advances
    linearly from 0 to 1 over the duration".  [elapsed] is the time since
    the delay of the animation was over; the progress is 0 before that and
    1 once the duration has passed. *)
Definition progress (duration elapsed : Q) : Q :=
  Qmin 1 (Qmax 0 (elapsed / duration)).

(** Modelled from the spec: the value [animate(from, to, {ease: 'linear'})]
    of the [motion] package hands to [onUpdate] (section 4.3: the cursor is
    [progress * length]). *)
Definition latest (from to progress : Q) : Q := from + (to - from) * progress.

(** [onUpdate: (latest) => motionText.set(text.slice(0, Math.ceil(latest)))]:
    the text that is set. *)
Definition onUpdate (s : text) (latest : Q) : text := slice0 s (Qceiling latest).

(** [duration] and [delay] of the two animations of [FadeOutText]. *)
Definition strike_duration : Q := 0.3.
Definition fade_duration : Q := 0.5.
Definition fade_delay : Q := 0.3.

End Animator.

(** ** The runtime: children, effects and the animation frame loop *)

Module Runtime.
Import Diff Component Animator.

(** What [animate] returns; [stop] is its only method the component uses. *)
Abbreviation handle := nat.

(** The three calls of [animate] in the source.  Of the strike-through and
    the opacity animation only the timeline is kept (their eased values are
    styling); the reveal carries the motion value and the text its
    [onUpdate] closes over, the fade the [onComplete] it was given. *)
Inductive animation_body :=
| Reveal (motionText : nat) (text : text)
| Strike
| Fade (onComplete : option nat).

Record animation := mkAnimation {
  a_id : handle;
  a_start : Q;
  a_delay : Q;
  a_duration : Q;
  a_body : animation_body }.

(** A mounted child with the state of its hooks: the motion value of
    [useMotionValue('')] and the handles its effect keeps for the cleanup. *)
Inductive instance :=
| ITypewriter (k : key) (text : text) (color backgroundColor : string)
    (motionText : nat) (animation : handle)
| IFadeOut (k : key) (text : text) (onComplete : option nat)
    (strikeAnimation fadeAnimation : handle)
| ISpan (k : key) (st : style) (text : text).

Definition instance_key (c : instance) : key :=
  match c with
  | ITypewriter k _ _ _ _ _ | IFadeOut k _ _ _ _ | ISpan k _ _ => k
  end.

Definition instance_element (c : instance) : element :=
  match c with
  | ITypewriter _ t c b _ _ => TypewriterText t c b
  | IFadeOut _ t cb _ _ => FadeOutText t cb
  | ISpan _ st t => Span st t
  end.

(** The handles the cleanup of the child's effect stops:
    [animation.stop()], and [strikeAnimation.stop(); fadeAnimation.stop()]. *)
Definition handles (c : instance) : list handle :=
  match c with
  | ITypewriter _ _ _ _ _ h => [h]
  | IFadeOut _ _ _ hs hf => [hs; hf]
  | ISpan _ _ _ => []
  end.

Definition view (c : option instance) : option (key * element) :=
  (λ c, (instance_key c, instance_element c)) <$> c.

(** The animation frame loop and the motion values, with two logs that
    record every [motionText.set] and every call of an [onComplete]. *)
Record runtime := mkRuntime {
  now : Q;
  next : nat;
  frame_loop : list animation;
  motion_values : gmap nat text;
  updates : list (Q * nat * text);
  completions : list (Q * Q * nat) }.

Definition boot (t0 : Q) : runtime := mkRuntime t0 0 [] ∅ [] [].

(** Modelled from the spec: [animate(..., {duration, delay, ...})] of the
    [motion] package.  Section 5: each animator "runs an independent
    animation timeline" on a "timer/animation-frame driven" loop.  The
    animation joins the frame loop and starts now; its handle is what
    [animate] returns. *)
Definition animate (delay duration : Q) (body : animation_body) (r : runtime)
  : runtime * handle :=
  (mkRuntime (now r) (S (next r))
     (frame_loop r ++ [mkAnimation (next r) (now r) delay duration body])
     (motion_values r) (updates r) (completions r),
   next r).

(** Modelled from the spec: [stop()] on what [animate] returned.  Section 5:
    "a stopped animation must not invoke pending completion callbacks";
    section 7: "canceling an already-completed animation is a no-op".  The
    animation leaves the frame loop. *)
Definition stop (h : handle) (r : runtime) : runtime :=
  mkRuntime (now r) (next r) (filter (λ a, a_id a ≠ h) (frame_loop r))
    (motion_values r) (updates r) (completions r).

Definition stop_all (hs : list handle) (r : runtime) : runtime :=
  foldl (λ r h, stop h r) r hs.

(** Modelled from the spec: [useMotionValue(init)] of the [motion] package
    when the component mounts; the value lives as long as the component
    (section 3: animation state "is created when the segment first
    renders"). *)
Definition useMotionValue (init : text) (r : runtime) : runtime * nat :=
  (mkRuntime (now r) (S (next r)) (frame_loop r)
     (<[next r := init]> (motion_values r)) (updates r) (completions r),
   next r).

(** The effect of [TypewriterText]. *)
Definition typewriter_effect (motionText : nat) (s : text) (r : runtime)
  : runtime * handle :=
  animate 0 (reveal_duration s) (Reveal motionText s) r.

(** The effect of [FadeOutText]. *)
Definition fadeout_effect (onComplete : option nat) (r : runtime)
  : runtime * handle * handle :=
  let '(r1, strikeAnimation) := animate 0 strike_duration Strike r in
  let '(r2, fadeAnimation) := animate fade_delay fade_duration (Fade onComplete) r1 in
  (r2, strikeAnimation, fadeAnimation).

Definition mount_child (k : key) (e : element) (r : runtime) : runtime * instance :=
  match e with
  | TypewriterText t c b =>
      let '(r1, mv) := useMotionValue [] r in
      let '(r2, h) := typewriter_effect mv t r1 in
      (r2, ITypewriter k t c b mv h)
  | FadeOutText t cb =>
      let '(r1, hs, hf) := fadeout_effect cb r in
      (r1, IFadeOut k t cb hs hf)
  | Span st t => (r, ISpan k st t)
  end.

(** Modelled from the spec: when React, which is not part of the sources,
    keeps a child and its effect.  Section 4.2: "each rendered node is keyed
    by (kind, index)"; section 5: a cleanup runs "when the owning segment is
    removed from the render tree or its inputs change".  A child of the
    previous render is kept, effect and all, when the new render has a child
    of the same component with the same key in its place and no dependency
    of the effect changed: [[text, motionText]] for [TypewriterText],
    [[opacity, strikethrough, onComplete]] for [FadeOutText].  The keys hold
    the index, so "in its place" is "at the same index".  [DiffText] makes a
    new [onComplete] closure at every render, which is never the closure of
    the render before. *)
Definition effect_kept (o : option instance) (n : option (key * element)) : bool :=
  match o, n with
  | Some (ITypewriter k' t' _ _ _ _), Some (k, TypewriterText t _ _) =>
      bool_decide (k' = k) && bool_decide (t' = t)
  | Some (IFadeOut k' _ cb' _ _), Some (k, FadeOutText _ cb) =>
      bool_decide (k' = k) && bool_decide (cb' = None) && bool_decide (cb = None)
  | Some (ISpan k' _ _), Some (k, Span _ _) => bool_decide (k' = k)
  | _, _ => false
  end.

(** Modelled from the spec: the cleanups React runs at a commit (section 5,
    as above): those of the children that go away and of the effects that
    run again. *)
Fixpoint stale_handles (olds : list (option instance))
    (news : list (option (key * element))) : list handle :=
  match olds, news with
  | [], _ => []
  | o :: olds', [] => from_option handles [] o ++ stale_handles olds' []
  | o :: olds', n :: news' =>
      (if effect_kept o n then [] else from_option handles [] o)
      ++ stale_handles olds' news'
  end.

(** Modelled from the spec: the child React has at one index after the
    commit (sections 4.2 and 5, as above): the child that was there, with
    its effect run again when a dependency changed, or a new one. *)
Definition commit_child (o : option instance) (n : option (key * element))
    (r : runtime) : runtime * option instance :=
  match n with
  | None => (r, None)
  | Some (k, e) =>
      match e, o with
      | TypewriterText t c b, Some (ITypewriter k' t' _ _ mv h) =>
          if bool_decide (k' = k) then
            if bool_decide (t' = t) then (r, Some (ITypewriter k t c b mv h))
            else
              let '(r1, h1) := typewriter_effect mv t r in
              (r1, Some (ITypewriter k t c b mv h1))
          else let '(r1, c1) := mount_child k e r in (r1, Some c1)
      | FadeOutText t cb, Some (IFadeOut k' _ cb' hs hf) =>
          if bool_decide (k' = k) then
            if bool_decide (cb' = None) && bool_decide (cb = None)
            then (r, Some (IFadeOut k t cb hs hf))
            else
              let '(r1, hs1, hf1) := fadeout_effect cb r in
              (r1, Some (IFadeOut k t cb hs1 hf1))
          else let '(r1, c1) := mount_child k e r in (r1, Some c1)
      | Span st t, Some (ISpan k' _ _) =>
          if bool_decide (k' = k) then (r, Some (ISpan k st t))
          else let '(r1, c1) := mount_child k e r in (r1, Some c1)
      | _, _ => let '(r1, c1) := mount_child k e r in (r1, Some c1)
      end
  end.

(** Modelled from the spec: the children React has after the commit, index
    by index. *)
Fixpoint commit (olds : list (option instance))
    (news : list (option (key * element))) (r : runtime)
  : runtime * list (option instance) :=
  match news with
  | [] => (r, [])
  | n :: news' =>
      let '(r1, c) := commit_child (match olds with o :: _ => o | [] => None end) n r in
      let '(r2, cs) := commit (tail olds) news' r1 in
      (r2, c :: cs)
  end.

(** Modelled from the spec: one commit of React; first every cleanup, then
    every new effect. *)
Definition reconcile (olds : list (option instance))
    (news : list (option (key * element))) (r : runtime)
  : runtime * list (option instance) :=
  commit olds news (stop_all (stale_handles olds news) r).

(** The state of a mounted [DiffText]. *)
Record component := mkComponent {
  props : DiffTextProps;
  removedParts : gset nat;
  children : list (option instance) }.

Record world := mkWorld {
  rt : runtime;
  mounted : option component }.

(** A render of the mounted component with the given properties and state,
    and its commit. *)
Definition rerender (p : DiffTextProps) (rp : gset nat) (c : component)
    (r : runtime) : world :=
  let '(r1, cs) := reconcile (children c) (DiffText p rp) r in
  mkWorld r1 (Some (mkComponent p rp cs)).

(** The first render: [useState(new Set())]. *)
Definition mount (t0 : Q) (p : DiffTextProps) : world :=
  rerender p ∅ (mkComponent p ∅ []) (boot t0).

(** *** One animation frame *)

Definition elapsed (t : Q) (a : animation) : Q := t - a_start a - a_delay a.

Definition finished (t : Q) (a : animation) : bool :=
  Qle_bool (a_duration a) (elapsed t a).

(** Modelled from the spec: what one animation of the [motion] package does
    at the frame of time [t] (sections 4.3 and 4.4): a reveal calls its
    [onUpdate] with the value for the progress made; a fade that has reached
    its end calls its [onComplete]. *)
Definition tick (t : Q) (r : runtime) (a : animation) : runtime :=
  match a_body a with
  | Reveal mv s =>
      let shown :=
        onUpdate s (latest 0 (length_of s) (progress (a_duration a) (elapsed t a))) in
      mkRuntime (now r) (next r) (frame_loop r) (<[mv := shown]> (motion_values r))
        (updates r ++ [(t, mv, shown)]) (completions r)
  | Strike => r
  | Fade None => r
  | Fade (Some index) =>
      if finished t a
      then mkRuntime (now r) (next r) (frame_loop r) (motion_values r) (updates r)
             (completions r ++ [(t, a_start a, index)])
      else r
  end.

(** The indices handed to [handleRemoveComplete] at the frame of time [t]. *)
Definition fired (t : Q) (l : list animation) : list nat :=
  omap (λ a, match a_body a with
             | Fade (Some index) => if finished t a then Some index else None
             | _ => None
             end) l.

(** Modelled from the spec: the frame loop of the [motion] package at the
    frame of time [t]: every animation ticks, in the order in which they
    were started, and those that have reached their end leave the loop. *)
Definition run_frame (t : Q) (r : runtime) : runtime :=
  let r1 := foldl (tick t) r (frame_loop r) in
  mkRuntime t (next r1) (filter (λ a, finished t a = false) (frame_loop r))
    (motion_values r1) (updates r1) (completions r1).

(** Modelled from the spec: one animation frame (section 5: "rendering and
    the callback both run on the same single-threaded event loop"; section
    4.2: the callback "mutates RemovalCompletionSet by adding the segment's
    index, which triggers a re-render").  A frame earlier than the last one
    is ignored; the state updates of one frame are applied together, then
    the component renders once. *)
Definition frame (t : Q) (w : world) : world :=
  if Qle_bool (now (rt w)) t then
    let r := run_frame t (rt w) in
    match mounted w with
    | None => mkWorld r None
    | Some c =>
        match fired t (frame_loop (rt w)) with
        | [] => mkWorld r (Some c)
        | idxs =>
            rerender (props c)
              (foldl (λ s index, handleRemoveComplete index s) (removedParts c) idxs)
              c r
        end
    end
  else w.

(** *** The life of one mounted component *)

Inductive event :=
| SetProps (p : DiffTextProps)
| Frame (t : Q)
| Unmount.

(** What happens to a mounted component: the parent renders it again with
    properties [p] (the state [removedParts] is kept, as [useState] does), a
    frame comes, or the component is unmounted and every cleanup runs. *)
Definition step (w : world) (ev : event) : world :=
  match ev, mounted w with
  | SetProps p, Some c => rerender p (removedParts c) c (rt w)
  | SetProps _, None => w
  | Frame t, _ => frame t w
  | Unmount, Some c =>
      mkWorld (stop_all (concat (from_option handles [] <$> children c)) (rt w)) None
  | Unmount, None => w
  end.

Definition run (w : world) (evs : list event) : world := foldl step w evs.

End Runtime.

(** ** Invariants and auxiliary notions *)

Module Invariants.
Import Diff Component Animator Runtime.
Local Open Scope Q_scope.

(** The two sides of an edit script, token by token. *)
Definition script_old (es : script) : list text :=
  snd <$> filter (λ e, e.1 ≠ Added) es.

Definition script_new (es : script) : list text :=
  snd <$> filter (λ e, e.1 ≠ Removed) es.

(** An animation belongs to a child when the child's effect made it: its
    handle is the one the child keeps, and its options are those of the
    source. *)
Definition owns (c : instance) (a : animation) : Prop :=
  match c, a_body a with
  | ITypewriter _ s _ _ mv h, Reveal mv' s' =>
      a_id a = h ∧ mv' = mv ∧ s' = s ∧ a_delay a = 0 ∧ a_duration a = reveal_duration s
  | IFadeOut _ _ _ hs _, Strike =>
      a_id a = hs ∧ a_delay a = 0 ∧ a_duration a = strike_duration
  | IFadeOut _ _ cb _ hf, Fade cb' =>
      a_id a = hf ∧ cb' = cb ∧ a_delay a = fade_delay ∧ a_duration a = fade_duration
  | _, _ => False
  end.

Definition owned (cs : list (option instance)) (a : animation) : Prop :=
  ∃ i c, cs !! i = Some (Some c) ∧ owns c a.

(** What the commit of one child leaves behind, whatever the child was. *)
Record commit_post (r r' : runtime) (added : list animation) : Prop := {
  cp_now : now r' = now r;
  cp_next : (next r ≤ next r')%nat;
  cp_updates : updates r' = updates r;
  cp_completions : completions r' = completions r;
  cp_loop : frame_loop r' = frame_loop r ++ added;
  cp_ids : ∀ a, a ∈ added → (next r ≤ a_id a < next r')%nat ∧ a_start a = now r;
  cp_nodup : NoDup (a_id <$> added);
  cp_values : ∀ mv, (mv < next r)%nat → motion_values r' !! mv = motion_values r !! mv }.

(** A child whose effect has just run: its handles are new and its fade,
    if it has one, is in the frame loop. *)
Definition fresh_child (r r' : runtime) (added : list animation) (c : instance) : Prop :=
  (∀ h, h ∈ handles c → (next r ≤ h < next r')%nat)
  ∧ (∀ k t cb hs hf, c = IFadeOut k t cb hs hf →
       ∃ a, a ∈ added ∧ a_id a = hf ∧ a_body a = Fade cb).

(** The motion value of a child, if it has one. *)
Definition motion (c : instance) : option nat :=
  match c with ITypewriter _ _ _ _ mv _ => Some mv | _ => None end.

(** What has to hold of the frame loop before a commit: handles are
    unique and were handed out already, every animation belongs to a
    child, and no two children share a motion value. *)
Record loop_ok (r : runtime) (cs : list (option instance)) : Prop := {
  lo_nodup : NoDup (a_id <$> frame_loop r);
  lo_ids : ∀ a, a ∈ frame_loop r → (a_id a < next r)%nat;
  lo_start : ∀ a, a ∈ frame_loop r → a_start a <= now r;
  lo_owned : ∀ a, a ∈ frame_loop r → owned cs a;
  lo_handles : ∀ i c h, cs !! i = Some (Some c) → h ∈ handles c → (h < next r)%nat;
  lo_values : ∀ i c mv, cs !! i = Some (Some c) → motion c = Some mv → (mv < next r)%nat;
  lo_values_inj : ∀ i1 i2 c1 c2 mv, cs !! i1 = Some (Some c1) → cs !! i2 = Some (Some c2) →
      motion c1 = Some mv → motion c2 = Some mv → i1 = i2 }.

(** Every [FadeOutText] that was given a callback has its fade in the
    frame loop. *)
Definition fades_alive (r : runtime) (cs : list (option instance)) : Prop :=
  ∀ i k t j hs hf, cs !! i = Some (Some (IFadeOut k t (Some j) hs hf)) →
    ∃ a, a ∈ frame_loop r ∧ a_id a = hf ∧ a_body a = Fade (Some j).

(** The calls of [onComplete] at the frame of time [t], as they are logged. *)
Definition fired_records (t : Q) (l : list animation) : list (Q * Q * nat) :=
  omap (λ a, match a_body a with
             | Fade (Some index) =>
                 if finished t a then Some (t, a_start a, index) else None
             | _ => None
             end) l.

(** The invariant of every state a mounted component can reach: a
    callback was called at most once for an index and no sooner than the
    delay and the duration of the fade after its start; while mounted, the
    children are those of the last render, the frame loop holds their
    animations only, and every index that was reported is in
    [removedParts]; once unmounted, the frame loop is empty. *)
Record world_ok (w : world) : Prop := {
  wo_nodup : NoDup ((λ x, x.2) <$> completions (rt w));
  wo_timing : ∀ x, x ∈ completions (rt w) → x.1.2 + fade_delay + fade_duration <= x.1.1;
  wo_tree :
    match mounted w with
    | None => frame_loop (rt w) = []
    | Some c =>
        loop_ok (rt w) (children c) ∧ fades_alive (rt w) (children c)
        ∧ view <$> children c = DiffText (props c) (removedParts c)
        ∧ ∀ x, x ∈ completions (rt w) → x.2 ∈ removedParts c
    end }.

(** Two pairs of texts whose character diff is an unchanged part followed
    by a removed part; [showRemoved] and [animateChanges] are left to their
    defaults. *)
Definition drop_b : DiffTextProps :=
  mkProps (txt "ab") (txt "a") (Some Chars) None None None.

Definition drop_y : DiffTextProps :=
  mkProps (txt "xy") (txt "x") (Some Chars) None None None.

(** The empty text becomes "hello", with every optional property left out. *)
Definition add_hello : DiffTextProps :=
  mkProps (txt "") (txt "hello") None None None None.

(** An event that leaves [showRemoved] off. *)
Definition keeps_removed_hidden (ev : event) : Prop :=
  match ev with SetProps p => showRemoved_of p = false | _ => True end.

End Invariants.

(** ** What a render shows, and runs of events of one kind *)

Module Rendering.
Import Diff Component Animator Runtime.

(** The index a key was made from. *)
Definition key_index (k : key) : nat :=
  match k with KAdded index | KRemoved index | KUnchanged index => index end.

(** The keys of the children a render returns, in their order; a part
    that is rendered as [null] has none. *)
Definition rendered_keys (out : list (option (key * element))) : list key :=
  omap (fmap fst) out.

(** The text an element shows once its animation, if it has one, is
    over. *)
Definition element_text (e : element) : text :=
  match e with
  | TypewriterText s _ _ | FadeOutText s _ | Span _ s => s
  end.

(** An event that leaves [animateChanges] off. *)
Definition keeps_static (ev : event) : Prop :=
  match ev with SetProps p => animateChanges_of p = false | _ => True end.


End Rendering.

(** ** Values of type [any] *)

Module Js.

(** A JavaScript value as the route helpers meet it: what [JSON.parse]
    gives, and [undefined].  The fields of an object are listed in the order
    in which [Object.values] visits them. *)
#[warnings="-register-all"] Inductive any :=
| VUndefined
| VNull
| VBool (b : bool)
| VNum (n : Q)
| VStr (s : text)
| VArr (items : list any)
| VObj (fields : list (text * any)).

(** The truth of a value in a condition: [undefined], [null], [false], [0]
    and the empty string are false, everything else is true. *)
Definition truthy (v : any) : bool :=
  match v with
  | VUndefined | VNull => false
  | VBool b => b
  | VNum n => negb (Qeq_bool n 0)
  | VStr s => negb (bool_decide (s = []))
  | VArr _ | VObj _ => true
  end.

Definition isArray (v : any) : bool :=
  match v with VArr _ => true | _ => false end.

(** [xs[0]] on an array: its first item, or [undefined]. *)
Definition item0 (xs : list any) : any := default VUndefined (head xs).

Fixpoint field (name : text) (fs : list (text * any)) : any :=
  match fs with
  | [] => VUndefined
  | (k, v) :: fs' => if bool_decide (k = name) then v else field name fs'
  end.

(** [v?.name] for a name that no prototype defines ([humanInTheLoop],
    [data], [runId], [stepPath], [state], [suspendPayload]): the own
    property of an object, [undefined] on anything else. *)
Definition get (v : any) (name : string) : any :=
  match v with VObj fs => field (txt name) fs | _ => VUndefined end.

(** [Object.values(v)] for a [v] that is neither [null] nor [undefined]. *)
Definition Object_values (v : any) : list any :=
  match v with
  | VObj fs => snd <$> fs
  | VArr xs => xs
  | VStr s => (λ c, VStr [c]) <$> s
  | _ => []
  end.

(** [v === 'literal'] *)
Definition is_string (v : any) (literal : string) : bool :=
  match v with VStr s => bool_decide (s = txt literal) | _ => false end.

End Js.

(** ** The steps of the chat workflow *)

Module Workflow.
Import Component Js.

Inductive role := System | User | Assistant.

Record message := mkMessage { msg_role : role; content : text }.

(** [ChatInputSchema] *)
Record ChatInput := mkChatInput {
  prompt : text;
  temperature : option Q;
  maxTokens : option Q;
  systemPrompt : option text;
  streamController : any;
  additionalContext : any }.

(** The output of [buildAgentContext]: the input with [messages]. *)
Record AgentContext := mkAgentContext {
  input : ChatInput;
  messages : list message }.

(** The output of [userApproval]. *)
Record Approval := mkApproval {
  context : AgentContext;
  approved : bool;
  feedback : option text }.

(** [UserApprovalSuspendSchema] *)
Record SuspendPayload := mkSuspend {
  pendingResponse : text;
  requiresApproval : bool }.

(** [UserApprovalResumeSchema]; the stream controller that travels with
    the resume data is left out. *)
Record ResumeData := mkResume {
  rd_approved : bool;
  rd_feedback : option text }.

(** [toLowerCase] on one code unit below 256: the capital letters of ASCII
    and of Latin-1 move up by 32. *)
Definition lower_unit (c : ascii) : ascii :=
  let n := nat_of_ascii c in
  if ((65 <=? n) && (n <=? 90)) || ((192 <=? n) && (n <=? 222) && negb (n =? 215))
  then ascii_of_nat (n + 32) else c.

Definition toLowerCase (s : text) : text := lower_unit <$> s.

Fixpoint starts_with (sub s : text) : bool :=
  match sub, s with
  | [], _ => true
  | a :: sub', b :: s' => bool_decide (a = b) && starts_with sub' s'
  | _ :: _, [] => false
  end.

(** [s.includes(sub)] *)
Fixpoint includes (s sub : text) : bool :=
  starts_with sub s || match s with [] => false | _ :: s' => includes s' sub end.

(** [fetchContext]: [{ ...inputData, prompt: frontendContext }] with
    [frontendContext = inputData.prompt]. *)
Definition fetchContext (inputData : ChatInput) : ChatInput :=
  mkChatInput (prompt inputData) (temperature inputData) (maxTokens inputData)
    (systemPrompt inputData) (streamController inputData) (additionalContext inputData).

(** [buildAgentContext] *)
Definition buildAgentContext (inputData : ChatInput) : AgentContext :=
  mkAgentContext
    (mkChatInput (prompt inputData) (temperature inputData) (maxTokens inputData)
       (systemPrompt inputData) (streamController inputData) (additionalContext inputData))
    [mkMessage User (prompt inputData)].

(** [inputData.messages.some((msg) => ...)] *)
Definition needsApproval (msgs : list message) : bool :=
  existsb (λ msg, includes (toLowerCase (content msg)) (txt "sensitive")
                  || includes (toLowerCase (content msg)) (txt "approve")) msgs.

(** [userApproval]: the payloads handed to [suspend], and the output.
    [resumeData] is absent when the step runs for the first time;
    [inputData.messages[0].content] raises a TypeError without a first
    message. *)
Definition userApproval (inputData : AgentContext) (resumeData : option ResumeData)
  : outcome (list SuspendPayload * Approval) :=
  let approved := default false (rd_approved <$> resumeData) in
  let feedback := resumeData ≫= rd_feedback in
  if needsApproval (messages inputData) && negb approved then
    match head (messages inputData) with
    | None => Thrown "TypeError"
    | Some msg =>
        Returned
          ([mkSuspend (txt "Request pending approval: " ++ content msg) true],
           mkApproval inputData false None)
    end
  else
    Returned
      ([],
       mkApproval inputData true
         (Some (match feedback with
                | Some (c :: f) => c :: f
                | _ => txt "Auto-approved"
                end))).

(** The first three steps of [chatWorkflow], one after the other. *)
Definition approval_pipeline (inputData : ChatInput) (resumeData : option ResumeData)
  : outcome (list SuspendPayload * Approval) :=
  userApproval (buildAgentContext (fetchContext inputData)) resumeData.

End Workflow.

(** ** The chat routes *)

Module Routes.
Import Component Js Workflow.

(** The result of a workflow run, with the fields the routes read:
    [result.status], [result.result], [result.suspended] (the paths of the
    suspended steps) and [result.steps] (what each step left, by step
    id). *)
Record WorkflowResult := mkResult {
  wr_status : text;
  wr_result : any;
  wr_suspended : list (list text);
  wr_steps : list (text * any) }.

(** What the handlers call and do not define: [JSON.parse], and the two
    ways into the workflow engine, each of which returns or throws:
    [chatWorkflow.createRun({ runId }).resume({ resumeData, step })], and
    [chatWorkflow.createRunAsync()] followed by [run.start({ inputData })],
    which gives [run.runId] and the result. *)
Record Host := mkHost {
  JSON_parse : text → outcome any;
  resume : any → ResumeData → list any → outcome WorkflowResult;
  start : ChatInput → outcome (text * WorkflowResult) }.

(** [parseAdditionalContext] *)
Definition parseAdditionalContext (h : Host) (additionalContext : any) : outcome any :=
  match additionalContext with
  | VStr s => JSON_parse h s
  | _ => Returned additionalContext
  end.

(** [extractSuspendData] *)
Definition extractSuspendData (parsedAdditionalContext : any) : any :=
  if negb (truthy (get (get parsedAdditionalContext "humanInTheLoop") "data")) then VNull
  else
    let suspendData :=
      item0 (Object_values (get (get parsedAdditionalContext "humanInTheLoop") "data")) in
    if truthy (get suspendData "runId") && truthy (get suspendData "stepPath")
       && is_string (get suspendData "state") "suspended"
    then suspendData
    else VNull.

(** [normalizeStepPath] *)
Definition normalizeStepPath (stepPath : any) : list any :=
  match stepPath with
  | VArr items =>
      match item0 items with
      | VArr first => first
      | _ => items
      end
  | _ => if truthy stepPath then [stepPath] else [VStr (txt "userApproval")]
  end.

(** The [step] that the handler of [/chat/resume] passes to [resume]. *)
Definition resume_step (stepPath : any) : list any :=
  match stepPath with
  | VArr items =>
      match item0 items with
      | VArr first => first
      | _ => items
      end
  | _ => [VStr (txt "userApproval")]
  end.

(** The [step] that the handler of [/chat/resume/stream] passes to
    [resume]. *)
Definition resume_stream_step (stepPath : any) : list any :=
  match stepPath with
  | VArr items =>
      match item0 items with
      | VArr first => first
      | _ => items
      end
  | _ =>
      if truthy stepPath then [stepPath]
      else [VStr (txt "userApproval")]
  end.

(** What the schema of [stepPath] lets through: [string[][]], [string[]],
    a string, or nothing. *)
Definition is_str (v : any) : Prop := ∃ s, v = VStr s.

Inductive valid_step_path : any → Prop :=
| step_path_absent : valid_step_path VUndefined
| step_path_string s : valid_step_path (VStr s)
| step_path_flat xs : Forall is_str xs → valid_step_path (VArr xs)
| step_path_nested xss :
    Forall (λ v, ∃ xs, v = VArr xs ∧ Forall is_str xs) xss → valid_step_path (VArr xss).

(** [SuspendResponse], with the fields the routes fill in. *)
Record SuspendResponse := mkSuspendResponse {
  sr_type : text;
  sr_status : text;
  sr_runId : any;
  sr_stepPath : list text;
  sr_suspendPayload : any;
  sr_message : text }.

(** The property key [result.steps[id]] reads when [id] may be
    [undefined]. *)
Definition property_key (id : option text) : text :=
  default (txt "undefined") id.

(** The body shared by [createSuspendResponse] and by the two handlers
    that answer a first suspension: [result.suspended[0][0]] raises a
    TypeError when no step is suspended. *)
Definition suspend_response (message : string) (runId : any) (result : WorkflowResult)
  : outcome SuspendResponse :=
  match wr_suspended result with
  | [] => Thrown "TypeError"
  | path :: _ =>
      let suspendedStepId := head path in
      let suspendedStepData := field (property_key suspendedStepId) (wr_steps result) in
      let suspendPayload := get suspendedStepData "suspendPayload" in
      Returned (mkSuspendResponse (txt "humanInTheLoop") (txt "suspended") runId path
                  suspendPayload (txt message))
  end.

(** [createSuspendResponse] *)
Definition createSuspendResponse : any → WorkflowResult → outcome SuspendResponse :=
  suspend_response "Workflow suspended again - approval required".

(** The answer of [/chat] and [/chat/stream] to a run that suspends. *)
Definition first_suspend_response : any → WorkflowResult → outcome SuspendResponse :=
  suspend_response "Workflow suspended - approval required".

(** [resumeData] of [resumeWorkflow]:
    [approved: true, feedback: `Resumed via ${context}`]. *)
Definition resumeWorkflow_data (context : string) : ResumeData :=
  mkResume true (Some (txt "Resumed via " ++ txt context)).

(** [resumeWorkflow]; reading [suspendData.runId] raises a TypeError on
    [null] and [undefined]. *)
Definition resumeWorkflow (h : Host) (suspendData : any) (context : string)
  : outcome WorkflowResult :=
  match suspendData with
  | VNull | VUndefined => Thrown "TypeError"
  | _ =>
      resume h (get suspendData "runId") (resumeWorkflow_data context)
        (normalizeStepPath (get suspendData "stepPath"))
  end.

(** What a handler reports with status 500: an error it caught, whose
    message it answers, or a status it did not expect, with a message of
    its own. *)
Inductive failure :=
| Caught (error : string)
| Unexpected (message : text).

(** What a handler answers: [c.json(result.result)], [c.json(suspendResponse)],
    or [c.json({ error, result }, 500)]. *)
Inductive response :=
| ChatOutput (output : any)
| Suspended (r : SuspendResponse)
| Error500 (error : failure) (result : option WorkflowResult).

Definition answer_suspended (r : outcome SuspendResponse) : response :=
  match r with
  | Returned r => Suspended r
  | Thrown e => Error500 (Caught e) None
  end.

(** A call into the workflow engine: [workflowRun.resume({ resumeData, step })]
    on the run [runId], or [run.start({ inputData })] on a new run. *)
Inductive call :=
| Resume (runId : any) (resumeData : ResumeData) (step : list any)
| Start (inputData : ChatInput).

(** The calls [resumeWorkflow] makes into the engine: none when reading
    [suspendData.runId] throws, otherwise the one call of [resume]. *)
Definition resumeWorkflow_calls (suspendData : any) (context : string) : list call :=
  match suspendData with
  | VNull | VUndefined => []
  | _ =>
      [Resume (get suspendData "runId") (resumeWorkflow_data context)
         (normalizeStepPath (get suspendData "stepPath"))]
  end.

(** The handler of [/chat], from the body that [ChatInputSchema.parse] let
    through: the calls it makes into the workflow engine, in their order,
    and its answer. *)
Definition chat_handler (h : Host) (body : ChatInput) : list call * response :=
  match parseAdditionalContext h (additionalContext body) with
  | Thrown e => ([], Error500 (Caught e) None)
  | Returned parsedAdditionalContext =>
      let suspendData := extractSuspendData parsedAdditionalContext in
      if truthy suspendData then
        (resumeWorkflow_calls suspendData "chat",
         match resumeWorkflow h suspendData "chat" with
         | Thrown e => Error500 (Caught e) None
         | Returned result =>
             if bool_decide (wr_status result = txt "success")
             then ChatOutput (wr_result result)
             else if bool_decide (wr_status result = txt "suspended") then
               answer_suspended (createSuspendResponse (get suspendData "runId") result)
             else
               Error500 (Unexpected (txt "Resume failed with status: " ++ wr_status result))
                 (Some result)
         end)
      else
        let inputData :=
          mkChatInput (prompt body) (temperature body) (maxTokens body)
            (systemPrompt body) VUndefined (additionalContext body) in
        ([Start inputData],
         match start h inputData with
         | Thrown e => Error500 (Caught e) None
         | Returned (runId, result) =>
             if bool_decide (wr_status result = txt "success")
             then ChatOutput (wr_result result)
             else if bool_decide (wr_status result = txt "suspended") then
               answer_suspended (first_suspend_response (VStr runId) result)
             else
               Error500
                 (Unexpected (txt "Workflow did not complete successfully: "
                              ++ wr_status result)) None
         end)
  end.

(** The handler of [/chat/resume], from the body that
    [ResumeInputSchema.parse] let through; [stepPath] is [undefined] when
    the body has none. *)
Definition chat_resume_handler (h : Host) (runId : text) (stepPath : any)
    (resumeData : ResumeData) : response :=
  match resume h (VStr runId) resumeData (resume_step stepPath) with
  | Returned result =>
      if bool_decide (wr_status result = txt "success") then ChatOutput (wr_result result)
      else
        Error500 (Unexpected (txt "Resume failed with status: " ++ wr_status result))
          (Some result)
  | Thrown _ =>
      if rd_approved resumeData then
        ChatOutput (VObj [(txt "content",
          VStr (txt "Request approved and processed. Feedback: "
                ++ match rd_feedback resumeData with
                   | Some (c :: f) => c :: f
                   | _ => txt "No feedback provided"
                   end))])
      else ChatOutput (VObj [(txt "content", VStr (txt "Request was denied by the user."))])
  end.

(** The additional context a client sends back to resume a run: the entries
    of [humanInTheLoop.data], and one entry of a suspended run. *)
Definition resume_context (data : any) : any :=
  VObj [(txt "humanInTheLoop", VObj [(txt "data", data)])].

Definition suspended_entry (runId : any) (stepPath : any) : any :=
  VObj [(txt "runId", runId); (txt "stepPath", stepPath);
        (txt "state", VStr (txt "suspended"))].

(** A handler answers with status 200. *)
Definition is_ok (r : response) : bool :=
  match r with Error500 _ _ => false | _ => true end.

End Routes.

Import Diff Component Animator Runtime Invariants.

(** * Properties *)

(** ** The diff computation *)

Section DiffFacts.

Lemma kind_of_change_of e : kind_of (change_of e) = e.1.
Proof. destruct e as [[] v]; reflexivity. Qed.

Lemma old_side_script es : old_side (change_of <$> es) = concat (script_old es).
Proof.
  unfold old_side, script_old.
  induction es as [|e es IH]; [reflexivity|].
  rewrite fmap_cons, !filter_cons, kind_of_change_of.
  destruct (decide (e.1 ≠ Added)); simpl; [f_equal|]; exact IH.
Qed.

Lemma new_side_script es : new_side (change_of <$> es) = concat (script_new es).
Proof.
  unfold new_side, script_new.
  induction es as [|e es IH]; [reflexivity|].
  rewrite fmap_cons, !filter_cons, kind_of_change_of.
  destruct (decide (e.1 ≠ Removed)); simpl; [f_equal|]; exact IH.
Qed.

Lemma script_old_cons k v es :
  script_old ((k, v) :: es) = if decide (k = Added) then script_old es else v :: script_old es.
Proof.
  unfold script_old. rewrite filter_cons. simpl.
  destruct (decide (k ≠ Added)), (decide (k = Added)); try done.
Qed.

Lemma script_new_cons k v es :
  script_new ((k, v) :: es) = if decide (k = Removed) then script_new es else v :: script_new es.
Proof.
  unfold script_new. rewrite filter_cons. simpl.
  destruct (decide (k ≠ Removed)), (decide (k = Removed)); try done.
Qed.

Lemma script_old_added ys : script_old (pair Added <$> ys) = [].
Proof.
  induction ys as [|y ys IH]; [reflexivity|].
  rewrite fmap_cons, script_old_cons. by rewrite decide_True.
Qed.

Lemma script_new_added ys : script_new (pair Added <$> ys) = ys.
Proof.
  induction ys as [|y ys IH]; [reflexivity|].
  rewrite fmap_cons, script_new_cons, IH. by rewrite decide_False.
Qed.

Lemma script_old_removed xs : script_old (pair Removed <$> xs) = xs.
Proof.
  induction xs as [|x xs IH]; [reflexivity|].
  rewrite fmap_cons, script_old_cons, IH. by rewrite decide_False.
Qed.

Lemma script_new_removed xs : script_new (pair Removed <$> xs) = [].
Proof.
  induction xs as [|x xs IH]; [reflexivity|].
  rewrite fmap_cons, script_new_cons. by rewrite decide_True.
Qed.

(** An edit script of [lcs_diff] spells the second token sequence on its
    new side; on its old side it spells the first one, with a token that was
    kept written as the token of the new side it was taken for. *)
Lemma lcs_diff_sides same xs ys :
  Forall2 (λ x o, x = o ∨ same x o = true) xs (script_old (lcs_diff same xs ys))
  ∧ script_new (lcs_diff same xs ys) = ys.
Proof.
  revert ys. induction xs as [|x xs IHx]; intros ys.
  { simpl. rewrite script_old_added, script_new_added. by split; [constructor|]. }
  induction ys as [|y ys IHy].
  { change (lcs_diff same (x :: xs) []) with (pair Removed <$> (x :: xs)).
    rewrite script_old_removed, script_new_removed.
    split; [|done]. apply Forall2_same_length_lookup_2; [done|].
    intros i x1 x2 H1 H2. left. congruence. }
  change (lcs_diff same (x :: xs) (y :: ys)) with
    (if same x y then (Unchanged, y) :: lcs_diff same xs ys
     else if common ((Added, y) :: lcs_diff same (x :: xs) ys)
               <=? common ((Removed, x) :: lcs_diff same xs (y :: ys))
          then (Removed, x) :: lcs_diff same xs (y :: ys)
          else (Added, y) :: lcs_diff same (x :: xs) ys).
  destruct (same x y) eqn:Hxy.
  - rewrite script_old_cons, script_new_cons.
    destruct (IHx ys) as [Ho ->]. repeat case_decide; try done.
    split; [|done]. constructor; [by right|done].
  - destruct (_ <=? _).
    + rewrite script_old_cons, script_new_cons.
      destruct (IHx (y :: ys)) as [Ho ->]. repeat case_decide; try done.
      split; [|done]. constructor; [by left|done].
    + rewrite script_old_cons, script_new_cons.
      destruct IHy as [Ho ->]. by repeat case_decide.
Qed.

(** When only equal tokens count as the same, the old side is spelled as it
    is. *)
Lemma lcs_diff_old_exact same xs ys :
  (∀ x y, same x y = true → x = y) → script_old (lcs_diff same xs ys) = xs.
Proof.
  intros Hsame. destruct (lcs_diff_sides same xs ys) as [Ho _].
  symmetry. apply list_eq_Forall2. eapply Forall2_impl; [exact Ho|].
  intros x o [?|?]; [done|by apply Hsame].
Qed.

(** The characters of a text that are not white space. *)
Lemma blank_no_ink t : is_blank t = true → filter (λ c, is_space c = false) t = [].
Proof.
  unfold is_blank. induction t as [|c t IH]; [done|].
  simpl. intros [Hc Ht]%andb_true_iff. rewrite filter_cons.
  destruct (decide (is_space c = false)) as [Hn|_]; [congruence|by apply IH].
Qed.

(** Token sequences that differ in their runs of white space only spell
    texts that differ in white space only. *)
Lemma same_word_ink xs os :
  Forall2 (λ x o, x = o ∨ same_word x o = true) xs os →
  filter (λ c, is_space c = false) (concat xs)
  = filter (λ c, is_space c = false) (concat os).
Proof.
  induction 1 as [|x o xs os Hxo _ IH]; [done|].
  simpl. rewrite !filter_app, IH. f_equal.
  destruct Hxo as [->|Hw]; [done|].
  unfold same_word in Hw. apply orb_true_iff in Hw as [Heq|Hb].
  - by apply bool_decide_eq_true in Heq as ->.
  - apply andb_true_iff in Hb as [Hx Ho]. by rewrite !blank_no_ink.
Qed.

Lemma merge_sides es :
  concat (script_old (merge es)) = concat (script_old es)
  ∧ concat (script_new (merge es)) = concat (script_new es).
Proof.
  induction es as [|[k t] es [IHo IHn]]; [done|].
  simpl. destruct (merge es) as [|[k' v] rest] eqn:Hm.
  { rewrite !script_old_cons, !script_new_cons.
    simpl in IHo, IHn. repeat case_decide; simpl; by rewrite <- ?IHo, <- ?IHn. }
  case_bool_decide as Hk.
  - subst k'. rewrite !script_old_cons, !script_new_cons in *.
    repeat case_decide; simpl in *; rewrite <- ?IHo, <- ?IHn, <- ?(assoc_L (++)); done.
  - rewrite script_old_cons, script_new_cons.
    rewrite (script_old_cons k t es), (script_new_cons k t es).
    repeat case_decide; simpl; by rewrite ?IHo, ?IHn.
Qed.

Lemma tokenize_words_concat s : concat (tokenize_words s) = s.
Proof.
  induction s as [|c s IH]; [done|].
  simpl. destruct (tokenize_words s) as [|[|d tok] rest].
  - simpl in *. by subst s.
  - simpl in *. by subst s.
  - destruct (joins c d); simpl in *; by rewrite IH.
Qed.

Lemma tokenize_chars_concat s : concat (tokenize_chars s) = s.
Proof. induction s as [|c s IH]; [done|]. simpl. by f_equal. Qed.

Lemma diff_tokens_new_side same tokenize oldStr newStr :
  (∀ s, concat (tokenize s) = s) →
  new_side (diff_tokens same tokenize oldStr newStr) = newStr.
Proof.
  intros Htok. unfold diff_tokens. rewrite new_side_script.
  destruct (merge_sides (lcs_diff same (tokenize oldStr) (tokenize newStr))) as [_ ->].
  destruct (lcs_diff_sides same (tokenize oldStr) (tokenize newStr)) as [_ ->].
  by rewrite Htok.
Qed.

Lemma diff_tokens_old_side same tokenize oldStr newStr :
  (∀ s, concat (tokenize s) = s) →
  (∀ x y, same x y = true → x = y) →
  old_side (diff_tokens same tokenize oldStr newStr) = oldStr.
Proof.
  intros Htok Hsame. unfold diff_tokens. rewrite old_side_script.
  destruct (merge_sides (lcs_diff same (tokenize oldStr) (tokenize newStr))) as [-> _].
  by rewrite lcs_diff_old_exact, Htok.
Qed.

Lemma diffWords_old_side_ink oldStr newStr :
  filter (λ c, is_space c = false) (old_side (diffWords oldStr newStr))
  = filter (λ c, is_space c = false) oldStr.
Proof.
  unfold diffWords, diff_tokens. rewrite old_side_script.
  destruct (merge_sides (lcs_diff same_word (tokenize_words oldStr) (tokenize_words newStr)))
    as [-> _].
  destruct (lcs_diff_sides same_word (tokenize_words oldStr) (tokenize_words newStr))
    as [Ho _].
  rewrite <- (same_word_ink _ _ Ho). by rewrite tokenize_words_concat.
Qed.

(** Comparing a token sequence with itself keeps every token. *)
Lemma lcs_diff_same same xs :
  (∀ x, same x x = true) → lcs_diff same xs xs = pair Unchanged <$> xs.
Proof.
  intros Hrefl. induction xs as [|x xs IH]; [done|].
  simpl. by rewrite Hrefl, IH.
Qed.

Lemma merge_one_kind k xs :
  merge (pair k <$> xs) = match xs with [] => [] | _ => [(k, concat xs)] end.
Proof.
  induction xs as [|x xs IH]; [done|].
  rewrite fmap_cons. cbn [merge]. rewrite IH. destruct xs as [|x' xs].
  - cbn [concat]. by rewrite (right_id_L [] (++)).
  - by rewrite bool_decide_eq_true_2.
Qed.

Lemma diff_tokens_same same tokenize t :
  (∀ x, same x x = true) →
  (∀ s, concat (tokenize s) = s) → tokenize [] = [] →
  diff_tokens same tokenize t t = match t with [] => [] | _ => [mkChange t false false] end.
Proof.
  intros Hrefl Htok Hnil. unfold diff_tokens.
  rewrite lcs_diff_same by done. rewrite merge_one_kind.
  destruct t as [|c t]; [by rewrite Hnil|].
  pose proof (Htok (c :: t)) as Ht.
  destruct (tokenize (c :: t)) as [|x xs]; [done|].
  cbn [fmap list_fmap]. unfold change_of. cbn [fst snd]. by rewrite Ht.
Qed.

Lemma same_char_refl x : same_char x x = true.
Proof. by apply bool_decide_eq_true_2. Qed.

Lemma same_word_refl x : same_word x x = true.
Proof. unfold same_word. by rewrite bool_decide_eq_true_2. Qed.

End DiffFacts.

(** C1, a counterexample: in word mode two texts that differ in white
    space only, "a b" with one blank and with two, give one unchanged part
    that holds the new text, so the parts that are not additions do not
    spell the old text. *)
Lemma word_diff_ignores_white_space :
  diffFunction Words (txt "a b") (txt "a  b") = [mkChange (txt "a  b") false false]
  ∧ old_side (diffFunction Words (txt "a b") (txt "a  b")) ≠ txt "a b".
Proof. split; [vm_compute; reflexivity | vm_compute; discriminate]. Qed.

(** C1, amended.  For every two texts and either mode the parts of the
    diff that are not removals spell the new text.  In character mode the
    parts that are not additions spell the old text; in word mode they
    spell it up to white space: what is left of them and of the old text
    when every white space character is taken out is the same. *)
Theorem diff_covers_new_text (oldText newText : text) (m : mode) :
  new_side (diffFunction m oldText newText) = newText
  ∧ old_side (diffFunction Chars oldText newText) = oldText
  ∧ filter (λ c, is_space c = false) (old_side (diffFunction Words oldText newText))
    = filter (λ c, is_space c = false) oldText.
Proof.
  split_and!.
  - destruct m; simpl; apply diff_tokens_new_side;
      [apply tokenize_words_concat | apply tokenize_chars_concat].
  - apply diff_tokens_old_side; [apply tokenize_chars_concat|].
    intros x y. apply bool_decide_eq_true.
  - apply diffWords_old_side_ink.
Qed.

(** C8. The diff of a text against itself has unchanged parts only, which
    spell the text; for a text that is not empty it is the single unchanged
    part holding the whole text, for the empty text it has no part. *)
Theorem diff_of_identical_texts (t : text) (m : mode) :
  Forall (λ c, kind_of c = Unchanged) (diffFunction m t t)
  ∧ concat (value <$> diffFunction m t t) = t
  ∧ diffFunction m t t = match t with [] => [] | _ => [mkChange t false false] end.
Proof.
  assert (diffFunction m t t
          = match t with [] => [] | _ => [mkChange t false false] end) as ->.
  { destruct m; simpl; apply diff_tokens_same;
      first [apply same_word_refl | apply same_char_refl
            | apply tokenize_words_concat | apply tokenize_chars_concat | reflexivity]. }
  destruct t as [|c t]; simpl.
  - repeat split. constructor.
  - repeat split; [by repeat constructor | by rewrite (right_id_L [] (++))].
Qed.

(** C9. In word mode the diff of the empty text against "hello" is one
    added part "hello", the diff of "hello" against the empty text is one
    removed part "hello", and the diff of the empty text against itself has
    no part. *)
Theorem diff_words_empty_edges :
  diffFunction Words (txt "") (txt "hello") = [mkChange (txt "hello") true false]
  ∧ diffFunction Words (txt "hello") (txt "") = [mkChange (txt "hello") false true]
  ∧ diffFunction Words (txt "") (txt "") = [].
Proof. repeat split; vm_compute; reflexivity. Qed.

(** ** The frame loop and the commit *)

Section RuntimeFacts.
Local Open Scope Q_scope.
Local Arguments effect_kept : simpl never.
Local Arguments useMotionValue : simpl never.
Local Arguments typewriter_effect : simpl never.
Local Arguments fadeout_effect : simpl never.
Local Arguments mount_child : simpl never.

Lemma owns_handle c a : owns c a → a_id a ∈ handles c.
Proof.
  destruct c, a as [? ? ? ? []]; simpl; intros H; try done;
    destruct H as (-> & _); set_solver.
Qed.

Lemma stop_all_fields hs r :
  now (stop_all hs r) = now r ∧ next (stop_all hs r) = next r
  ∧ motion_values (stop_all hs r) = motion_values r
  ∧ updates (stop_all hs r) = updates r
  ∧ completions (stop_all hs r) = completions r.
Proof.
  revert r. induction hs as [|h hs IH]; intros r; [done|].
  simpl. destruct (IH (stop h r)) as (-> & -> & -> & -> & ->). done.
Qed.

Lemma filter_all {A} (P : A → Prop) `{!∀ x, Decision (P x)} (l : list A) :
  (∀ x, x ∈ l → P x) → filter P l = l.
Proof.
  induction l as [|x l IH]; intros Hall; [done|].
  rewrite filter_cons_True by (apply Hall; set_solver).
  f_equal. apply IH. intros y Hy. apply Hall. set_solver.
Qed.

Lemma NoDup_fmap_eq {A B} (f : A → B) (l : list A) x y :
  NoDup (f <$> l) → x ∈ l → y ∈ l → f x = f y → x = y.
Proof.
  intros Hnd [i Hi]%list_elem_of_lookup [j Hj]%list_elem_of_lookup Hf.
  assert (i = j) as ->; [|congruence].
  apply (NoDup_lookup _ _ _ (f x) Hnd); rewrite list_lookup_fmap.
  - by rewrite Hi.
  - rewrite Hj. simpl. by rewrite Hf.
Qed.

Lemma elem_of_concat {A} (x : A) (ls : list (list A)) :
  x ∈ concat ls ↔ ∃ l, x ∈ l ∧ l ∈ ls.
Proof.
  induction ls as [|l ls IH]; simpl.
  - split; [by intros ?%elem_of_nil | by intros (l & _ & ?%elem_of_nil)].
  - rewrite elem_of_app, IH. split.
    + intros [Hx|(l' & Hx & Hl')]; [exists l | exists l'];
        (split; [done|]); rewrite elem_of_cons; auto.
    + intros (l' & Hx & [->|Hl']%elem_of_cons); [by left|].
      right. by exists l'.
Qed.

Lemma stop_all_frame_loop hs r :
  frame_loop (stop_all hs r) = filter (λ a, a_id a ∉ hs) (frame_loop r).
Proof.
  revert r. induction hs as [|h hs IH]; intros r.
  - simpl. symmetry. apply filter_all. set_solver.
  - simpl. rewrite IH. simpl. rewrite list_filter_filter.
    apply list_filter_iff. intros a. rewrite not_elem_of_cons. tauto.
Qed.

Lemma elem_of_stale_handles h olds news :
  h ∈ stale_handles olds news ↔
  ∃ i c, olds !! i = Some (Some c) ∧ h ∈ handles c
         ∧ effect_kept (Some c) (mjoin (news !! i)) = false.
Proof.
  revert news. induction olds as [|o olds IH]; intros news.
  { simpl. split; [set_solver|]. by intros (i & c & ? & _). }
  destruct news as [|n news]; simpl; rewrite elem_of_app, IH.
  - split.
    + intros [Hh|(i & c & Hi & Hc & Hk)].
      * destruct o as [c|]; [|set_solver]. exists 0%nat, c. by destruct c.
      * exists (S i), c. done.
    + intros ([|i] & c & Hi & Hc & Hk); simpl in *.
      * left. by simplify_eq.
      * right. exists i, c. done.
  - split.
    + intros [Hh|(i & c & Hi & Hc & Hk)].
      * destruct (effect_kept o n) eqn:E; [set_solver|].
        destruct o as [c|]; [|set_solver]. exists 0%nat, c. done.
      * exists (S i), c. done.
    + intros ([|i] & c & Hi & Hc & Hk); simpl in *.
      * left. simplify_eq. by rewrite Hk.
      * right. exists i, c. done.
Qed.

Lemma animate_spec dl du b r r' h :
  animate dl du b r = (r', h) →
  h = next r ∧ next r' = S (next r) ∧ now r' = now r
  ∧ frame_loop r' = frame_loop r ++ [mkAnimation (next r) (now r) dl du b]
  ∧ motion_values r' = motion_values r
  ∧ updates r' = updates r ∧ completions r' = completions r.
Proof. unfold animate. intros [= <- <-]. done. Qed.

Lemma commit_post_refl r : commit_post r r [].
Proof.
  split; try done; [by rewrite (right_id_L [] (++)) | set_solver | constructor].
Qed.

Lemma commit_post_trans r1 r2 r3 l1 l2 :
  commit_post r1 r2 l1 → commit_post r2 r3 l2 → commit_post r1 r3 (l1 ++ l2).
Proof.
  intros [] []. split.
  - congruence.
  - lia.
  - congruence.
  - congruence.
  - rewrite cp_loop1, cp_loop0. by rewrite (assoc_L (++)).
  - intros a [Ha|Ha]%elem_of_app.
    + destruct (cp_ids0 a Ha). split; [lia | done].
    + destruct (cp_ids1 a Ha). split; [lia | congruence].
  - rewrite fmap_app. apply NoDup_app. split_and!; [done| |done].
    intros x (a1 & -> & H1)%list_elem_of_fmap (a2 & Heq & H2)%list_elem_of_fmap.
    destruct (cp_ids0 a1 H1), (cp_ids1 a2 H2). lia.
  - intros mv Hmv. rewrite cp_values1 by lia. by apply cp_values0.
Qed.

Lemma typewriter_effect_post mv s r r' h :
  typewriter_effect mv s r = (r', h) →
  commit_post r r' [mkAnimation h (now r) 0 (reveal_duration s) (Reveal mv s)]
  ∧ h = next r ∧ next r' = S (next r).
Proof.
  unfold typewriter_effect. intros (-> & Hn & ? & ? & Hv & ? & ?)%animate_spec.
  split; [|done]. split; try done; try lia.
  - intros a ->%list_elem_of_singleton. simpl. split; [lia | done].
  - simpl. apply NoDup_singleton.
  - intros. by rewrite Hv.
Qed.

Lemma fadeout_effect_post cb r r' hs hf :
  fadeout_effect cb r = (r', hs, hf) →
  commit_post r r'
    [mkAnimation hs (now r) 0 strike_duration Strike;
     mkAnimation hf (now r) fade_delay fade_duration (Fade cb)]
  ∧ hs = next r ∧ hf = S (next r) ∧ next r' = S (S (next r)).
Proof.
  unfold fadeout_effect.
  destruct (animate 0 strike_duration Strike r) as [r1 h1] eqn:E1.
  destruct (animate fade_delay fade_duration (Fade cb) r1) as [r2 h2] eqn:E2.
  intros [= <- <- <-].
  apply animate_spec in E1 as (-> & Hn1 & Hnow1 & Hl1 & Hv1 & Hu1 & Hc1).
  apply animate_spec in E2 as (-> & Hn2 & Hnow2 & Hl2 & Hv2 & Hu2 & Hc2).
  split; [|by rewrite ?Hn2, ?Hn1]. split; try congruence; try lia.
  - rewrite Hl2, Hl1, <- (assoc_L (++)). simpl. by rewrite Hn1, Hnow1.
  - intros a [->|Ha]%elem_of_cons; [|apply list_elem_of_singleton in Ha as ->];
      simpl; split; (lia || done).
  - simpl. apply NoDup_cons. split; [|apply NoDup_singleton].
    intros Hin%list_elem_of_singleton. lia.
Qed.

Lemma useMotionValue_post init r r' mv :
  useMotionValue init r = (r', mv) →
  commit_post r r' [] ∧ mv = next r ∧ next r' = S (next r).
Proof.
  unfold useMotionValue. intros [= <- <-]. split; [|done].
  split; simpl; try done; try lia.
  - by rewrite (right_id_L [] (++)).
  - set_solver.
  - constructor.
  - intros mv Hmv. rewrite lookup_insert_ne by lia. done.
Qed.

Lemma typewriter_rerun_post k s c b mv r r' h :
  typewriter_effect mv s r = (r', h) →
  ∃ added, commit_post r r' added
    ∧ (∀ a, a ∈ added → owns (ITypewriter k s c b mv h) a)
    ∧ fresh_child r r' added (ITypewriter k s c b mv h).
Proof.
  intros (Hp & -> & Hn)%typewriter_effect_post.
  eexists. split; [exact Hp|]. split; [|split].
  - intros a ->%list_elem_of_singleton. simpl. done.
  - intros h ->%list_elem_of_singleton. lia.
  - intros; discriminate.
Qed.

Lemma fadeout_rerun_post k s cb r r' hs hf :
  fadeout_effect cb r = (r', hs, hf) →
  ∃ added, commit_post r r' added
    ∧ (∀ a, a ∈ added → owns (IFadeOut k s cb hs hf) a)
    ∧ fresh_child r r' added (IFadeOut k s cb hs hf).
Proof.
  intros (Hp & -> & -> & Hn)%fadeout_effect_post.
  eexists. split; [exact Hp|]. split; [|split].
  - intros a [->|Ha]%elem_of_cons; [|apply list_elem_of_singleton in Ha as ->];
      simpl; done.
  - intros h [->|Hh]%elem_of_cons; [|apply list_elem_of_singleton in Hh as ->]; lia.
  - intros ? ? ? ? ? [= -> -> -> -> ->]. eexists. split.
    + apply elem_of_cons. right. apply list_elem_of_singleton. reflexivity.
    + done.
Qed.

Lemma fresh_child_weaken r0 r r' r1 added0 added added1 c :
  (next r0 ≤ next r)%nat → (next r' ≤ next r1)%nat →
  fresh_child r r' added c → fresh_child r0 r1 (added0 ++ added ++ added1) c.
Proof.
  intros Hle Hle' (H2 & H3). split.
  - intros h Hh. specialize (H2 h Hh). lia.
  - intros k t cb hs hf Hc. destruct (H3 k t cb hs hf Hc) as (a & Ha & ?).
    exists a. split; [|done]. rewrite !elem_of_app. auto.
Qed.

Lemma mount_child_post k e r r' c :
  mount_child k e r = (r', c) →
  (instance_key c, instance_element c) = (k, e)
  ∧ ∃ added, commit_post r r' added ∧ (∀ a, a ∈ added → owns c a)
      ∧ fresh_child r r' added c.
Proof.
  destruct e as [s co b|s cb|st s]; unfold mount_child.
  - destruct (useMotionValue [] r) as [r1 mv] eqn:E1.
    destruct (typewriter_effect mv s r1) as [r2 h] eqn:E2.
    intros [= <- <-]. split; [done|].
    apply useMotionValue_post in E1 as (Hp1 & -> & Hn1).
    apply (typewriter_rerun_post k s co b) in E2 as (added & Hp2 & Ho & Hf).
    exists ([] ++ added). split; [by eapply commit_post_trans|]. split; [done|].
    apply (fresh_child_weaken r r1 r2 r2 [] added []) in Hf; [|lia|lia].
    by rewrite (right_id_L [] (++)) in Hf.
  - destruct (fadeout_effect cb r) as [[r1 hs] hf] eqn:E1.
    intros [= <- <-]. split; [done|].
    by apply (fadeout_rerun_post k s) in E1.
  - intros [= <- <-]. split; [done|].
    exists []. split; [apply commit_post_refl|].
    split; [|split]; [set_solver | set_solver | intros; discriminate].
Qed.

(** The commit of one child: either the child was kept with the very
    effect it had, or its effect has just run. *)
Lemma commit_child_post o n r r' c :
  commit_child o n r = (r', c) →
  view c = n
  ∧ ∃ added, commit_post r r' added
      ∧ (∀ a, a ∈ added → ∃ c', c = Some c' ∧ owns c' a)
      ∧ ∀ c', c = Some c' →
          if effect_kept o n
          then ∃ c_old, o = Some c_old ∧ handles c' = handles c_old
                        ∧ ∀ a, owns c_old a → owns c' a
          else fresh_child r r' added c'.
Proof.
  assert (∀ k e r1 c1, mount_child k e r = (r1, c1) → effect_kept o (Some (k, e)) = false →
            view (Some c1) = Some (k, e)
            ∧ ∃ added, commit_post r r1 added
                ∧ (∀ a, a ∈ added → ∃ c', Some c1 = Some c' ∧ owns c' a)
                ∧ ∀ c', Some c1 = Some c' →
                    if effect_kept o (Some (k, e)) then
                      ∃ c_old, o = Some c_old ∧ handles c' = handles c_old
                               ∧ ∀ a, owns c_old a → owns c' a
                    else fresh_child r r1 added c') as Hmount.
  { intros k e r1 c1 (Hv & added & Hp & Ho & Hf)%mount_child_post Hk.
    split; [simpl; by rewrite Hv|]. exists added. split; [done|]. split.
    - intros a Ha. exists c1. split; [done|]. by apply Ho.
    - intros c' [= <-]. by rewrite Hk. }
  destruct n as [[k e]|]; unfold commit_child.
  2:{ intros [= <- <-]. split; [done|]. exists []. split; [apply commit_post_refl|].
      split; [set_solver | intros; discriminate]. }
  destruct e as [s co b|s cb|st s];
    destruct o as [[k' s' co' b' mv h|k' s' cb' hs hf|k' st' s']|];
    try (destruct (mount_child k _ r) as [r1 c1] eqn:E;
         intros [= <- <-]; by apply Hmount).
  - case_bool_decide as Hk; [subst k'|].
    2:{ destruct (mount_child k _ r) as [r1 c1] eqn:E.
        intros [= <- <-]. apply Hmount; [done|].
        unfold effect_kept. by rewrite bool_decide_eq_false_2. }
    case_bool_decide as Hs; [subst s'|].
    + intros [= <- <-]. split; [done|]. exists []. split; [apply commit_post_refl|].
      split; [set_solver|]. intros c' [= <-].
      unfold effect_kept. rewrite !bool_decide_eq_true_2 by done. simpl.
      eexists. split; [done|]. split; [done|].
      intros [? ? ? ? []]; simpl; done.
    + destruct (typewriter_effect mv s r) as [r1 h1] eqn:E.
      intros [= <- <-]. split; [done|].
      apply (typewriter_rerun_post k s co b) in E as (added & Hp & Ho & Hf).
      exists added. split; [done|]. split.
      * intros a Ha. eexists. split; [done|]. by apply Ho.
      * intros c' [= <-]. unfold effect_kept.
        rewrite (bool_decide_eq_false_2 (s' = s)) by done.
        by rewrite andb_false_r.
  - case_bool_decide as Hk; [subst k'|].
    2:{ destruct (mount_child k _ r) as [r1 c1] eqn:E.
        intros [= <- <-]. apply Hmount; [done|].
        unfold effect_kept. by rewrite bool_decide_eq_false_2. }
    destruct (bool_decide (cb' = None) && bool_decide (cb = None)) eqn:Hcb.
    + apply andb_prop in Hcb as [->%bool_decide_eq_true ->%bool_decide_eq_true].
      intros [= <- <-]. split; [done|]. exists []. split; [apply commit_post_refl|].
      split; [set_solver|]. intros c' [= <-].
      unfold effect_kept. rewrite !bool_decide_eq_true_2 by done. simpl.
      eexists. split; [done|]. split; [done|].
      intros [? ? ? ? []]; simpl; done.
    + destruct (fadeout_effect cb r) as [[r1 hs1] hf1] eqn:E.
      intros [= <- <-]. split; [done|].
      apply (fadeout_rerun_post k s) in E as (added & Hp & Ho & Hf).
      exists added. split; [done|]. split.
      * intros a Ha. eexists. split; [done|]. by apply Ho.
      * intros c' [= <-]. unfold effect_kept.
        rewrite (bool_decide_eq_true_2 (k = k)) by done.
        cbn [andb]. by rewrite Hcb.
  - case_bool_decide as Hk; [subst k'|].
    2:{ destruct (mount_child k _ r) as [r1 c1] eqn:E.
        intros [= <- <-]. apply Hmount; [done|].
        unfold effect_kept. by rewrite bool_decide_eq_false_2. }
    intros [= <- <-]. split; [done|]. exists []. split; [apply commit_post_refl|].
    split; [set_solver|]. intros c' [= <-].
    unfold effect_kept. rewrite !bool_decide_eq_true_2 by done.
    eexists. split; [done|]. split; [done|].
    intros [? ? ? ? []]; simpl; done.
Qed.

Lemma commit_spec news : ∀ olds r r' cs,
  commit olds news r = (r', cs) →
  view <$> cs = news
  ∧ ∃ added, commit_post r r' added
      ∧ (∀ a, a ∈ added → owned cs a)
      ∧ ∀ i c, cs !! i = Some (Some c) →
          if effect_kept (mjoin (olds !! i)) (mjoin (news !! i))
          then ∃ c_old, olds !! i = Some (Some c_old) ∧ handles c = handles c_old
                        ∧ ∀ a, owns c_old a → owns c a
          else fresh_child r r' added c.
Proof.
  induction news as [|n news IH]; intros olds r r' cs.
  { simpl. intros [= <- <-]. split; [done|]. exists [].
    split; [apply commit_post_refl|]. split; [set_solver | by intros []]. }
  cbn [commit].
  set (o := match olds with o :: _ => o | [] => None end).
  destruct (commit_child o n r) as [r1 c0] eqn:E0.
  destruct (commit (tail olds) news r1) as [r2 cs'] eqn:E1.
  intros [= <- <-].
  apply commit_child_post in E0 as (Hv0 & added0 & Hp0 & Ho0 & Hk0).
  apply IH in E1 as (Hv1 & added1 & Hp1 & Ho1 & Hk1).
  split; [by rewrite fmap_cons, Hv0, Hv1|].
  exists (added0 ++ added1). split; [by eapply commit_post_trans|]. split.
  - intros a [Ha|Ha]%elem_of_app.
    + destruct (Ho0 a Ha) as (c' & -> & Hown). by exists 0%nat, c'.
    + destruct (Ho1 a Ha) as (i & c' & Hi & Hown). by exists (S i), c'.
  - intros [|i] c Hc; simpl in Hc.
    + injection Hc as ->. specialize (Hk0 c eq_refl).
      assert (mjoin (olds !! 0%nat) = o) as -> by (by destruct olds).
      simpl. destruct (effect_kept o n).
      * destruct Hk0 as (c_old & Ho & ? & ?). exists c_old.
        split; [|done]. unfold o in Ho.
        destruct olds as [|o' olds']; [done|]. simpl. by rewrite Ho.
      * apply (fresh_child_weaken r r r1 r2 [] added0 added1) in Hk0;
          [done | lia | apply Hp1].
    + specialize (Hk1 i c Hc).
      assert (olds !! S i = tail olds !! i) as Htl by (by destruct olds).
      rewrite Htl. simpl.
      destruct (effect_kept (mjoin (tail olds !! i)) (mjoin (news !! i))); [done|].
      apply (fresh_child_weaken r r1 r2 r2 added0 added1 []) in Hk1;
        [by rewrite (right_id_L [] (++)) in Hk1 | apply Hp0 | lia].
Qed.

(** The motion value of a child after a commit is the one the child had,
    or one made at this commit. *)
Lemma commit_child_motion o n r r' c c' mv :
  commit_child o n r = (r', c) → c = Some c' → motion c' = Some mv →
  (∃ c_old, o = Some c_old ∧ motion c_old = Some mv) ∨ (next r ≤ mv < next r')%nat.
Proof.
  assert (∀ k e r1 c1, mount_child k e r = (r1, c1) → motion c1 = Some mv →
            (next r ≤ mv < next r1)%nat) as Hmount.
  { intros k e r1 c1. destruct e as [s co b|s cb|st s]; unfold mount_child.
    - destruct (useMotionValue [] r) as [r2 mv'] eqn:E1.
      destruct (typewriter_effect mv' s r2) as [r3 h] eqn:E2.
      intros [= <- <-] [= <-].
      apply useMotionValue_post in E1 as (_ & -> & Hn1).
      apply typewriter_effect_post in E2 as (_ & _ & Hn2). lia.
    - destruct (fadeout_effect cb r) as [[r2 hs] hf]. by intros [= <- <-].
    - by intros [= <- <-]. }
  destruct n as [[k e]|]; unfold commit_child; [|by intros [= <- <-] [= <-]].
  destruct e as [s co b|s cb|st s];
    destruct o as [[k' s' co' b' mv' h|k' s' cb' hs hf|k' st' s']|];
    repeat case_bool_decide;
    repeat match goal with
      | |- context [mount_child ?k ?e r] =>
          destruct (mount_child k e r) as [r1 c1] eqn:E
      | |- context [typewriter_effect ?m ?t r] =>
          destruct (typewriter_effect m t r) as [r1 h1] eqn:E
      | |- context [fadeout_effect ?cb r] =>
          destruct (fadeout_effect cb r) as [[r1 hs1] hf1] eqn:E
      | |- context [if ?b then _ else _] => destruct b
      end;
    intros [= <- <-] [= <-] Hmv; try done;
    try (right; by eapply Hmount);
    left; eexists; (split; [reflexivity | exact Hmv]).
Qed.

Lemma commit_motion news : ∀ olds r r' cs,
  commit olds news r = (r', cs) →
  (∀ i c mv, cs !! i = Some (Some c) → motion c = Some mv →
     (∃ c_old, olds !! i = Some (Some c_old) ∧ motion c_old = Some mv)
     ∨ (next r ≤ mv < next r')%nat)
  ∧ ((∀ j c_old mv, olds !! j = Some (Some c_old) → motion c_old = Some mv →
        (mv < next r)%nat) →
     ∀ i1 i2 c1 c2 mv, cs !! i1 = Some (Some c1) → cs !! i2 = Some (Some c2) →
       motion c1 = Some mv → motion c2 = Some mv → (next r ≤ mv)%nat → i1 = i2).
Proof.
  induction news as [|n news IH]; intros olds r r' cs.
  { simpl. intros [= <- <-]. split; [by intros []|]. by intros _ []. }
  cbn [commit].
  set (o := match olds with o :: _ => o | [] => None end).
  destruct (commit_child o n r) as [r1 c0] eqn:E0.
  destruct (commit (tail olds) news r1) as [r2 cs'] eqn:E1.
  intros [= <- <-].
  pose proof (λ c' mv, commit_child_motion _ _ _ _ _ c' mv E0) as Hhead.
  pose proof E0 as (_ & added0 & [_ Hn0 _ _ _ _ _ _] & _)%commit_child_post.
  pose proof E1 as (_ & added1 & [_ Hn1 _ _ _ _ _ _] & _)%commit_spec.
  apply IH in E1 as (Htail & Hinj).
  assert (∀ i, tail olds !! i = olds !! S i) as Htl by (by destruct olds).
  assert (∀ c, o = Some c → olds !! 0%nat = Some (Some c)) as Ho.
  { intros c Hc. unfold o in Hc. destruct olds as [|? ?]; [done|]. simpl. by rewrite Hc. }
  assert (∀ i c mv, (c0 :: cs') !! i = Some (Some c) → motion c = Some mv →
            (∃ c_old, olds !! i = Some (Some c_old) ∧ motion c_old = Some mv)
            ∨ (match i with 0%nat => next r ≤ mv < next r1
               | S _ => next r1 ≤ mv < next r2 end)%nat) as Hall.
  { intros [|i] c mv Hc Hmv; simpl in Hc.
    - injection Hc as Hc.
      destruct (Hhead c mv Hc Hmv) as [(c_old & Hco & ?)|?]; [|by right].
      left. exists c_old. split; [by eapply Ho|done].
    - destruct (Htail i c mv Hc Hmv) as [(c_old & Hco & ?)|?]; [|by right].
      left. exists c_old. by rewrite <- Htl. }
  split.
  - intros i c mv Hc Hmv. destruct (Hall i c mv Hc Hmv) as [?|Hr]; [by left|].
    right. destruct i; lia.
  - intros Hold i1 i2 c1 c2 mv Hc1 Hc2 Hm1 Hm2 Hge.
    destruct (Hall i1 c1 mv Hc1 Hm1) as [(c_old & Hco & Hmo)|Hr1].
    { specialize (Hold _ _ _ Hco Hmo). lia. }
    destruct (Hall i2 c2 mv Hc2 Hm2) as [(c_old & Hco & Hmo)|Hr2].
    { specialize (Hold _ _ _ Hco Hmo). lia. }
    destruct i1 as [|i1], i2 as [|i2]; try done; try lia.
    f_equal. apply (Hinj) with c1 c2 mv; try done; [|lia].
    intros j c_old mv' Hj Hmv'. rewrite Htl in Hj. specialize (Hold _ _ _ Hj Hmv'). lia.
Qed.

Lemma reconcile_spec olds news r r' cs :
  loop_ok r olds →
  reconcile olds news r = (r', cs) →
  view <$> cs = news
  ∧ loop_ok r' cs ∧ fades_alive r' cs
  ∧ now r' = now r ∧ updates r' = updates r ∧ completions r' = completions r
  ∧ (next r ≤ next r')%nat
  ∧ (∀ mv, (mv < next r)%nat → motion_values r' !! mv = motion_values r !! mv)
  ∧ (∀ a, a ∈ frame_loop r' → a ∈ frame_loop r ∨ a_start a = now r).
Proof.
  intros [Hnd Hids Hst Hown Hh Hmv Hinj]. unfold reconcile.
  set (r0 := stop_all (stale_handles olds news) r).
  destruct (stop_all_fields (stale_handles olds news) r)
    as (Hnow0 & Hnext0 & Hval0 & Hupd0 & Hcomp0).
  pose proof (stop_all_frame_loop (stale_handles olds news) r) as Hloop0.
  fold r0 in Hnow0, Hnext0, Hval0, Hupd0, Hcomp0, Hloop0.
  intros Hcommit.
  pose proof (commit_motion _ _ _ _ _ Hcommit) as (Hmotion & Hfresh).
  rewrite Hnext0 in Hmotion, Hfresh. specialize (Hfresh Hmv).
  apply commit_spec in Hcommit as (Hview & added & Hp & Hadd & Hkept).
  destruct Hp as [Hpnow Hpnext Hpupd Hpcomp Hploop Hpids Hpnd Hpval].
  assert (∀ a, a ∈ frame_loop r0 → owned cs a) as Hold.
  { intros a. rewrite Hloop0, list_elem_of_filter. intros [Hns Ha].
    destruct (Hown a Ha) as (i & c & Hi & Hc).
    destruct (effect_kept (Some c) (mjoin (news !! i))) eqn:Hk.
    2:{ exfalso. apply Hns, elem_of_stale_handles.
        exists i, c. split_and!; [done | by apply owns_handle | done]. }
    assert (is_Some (cs !! i)) as [c' Hc'].
    { apply lookup_lt_is_Some. rewrite <- (length_fmap view), Hview.
      destruct (news !! i) eqn:E; [by eapply lookup_lt_Some|].
      by destruct c. }
    destruct c' as [c'|].
    2:{ assert (news !! i = Some None) as E.
        { rewrite <- Hview, list_lookup_fmap, Hc'. done. }
        rewrite E in Hk. by destruct c. }
    specialize (Hkept i c' Hc'). rewrite Hi in Hkept. simpl in Hkept.
    rewrite Hk in Hkept. destruct Hkept as (c_old & [= <-] & _ & Hsame).
    exists i, c'. auto. }
  split; [done|]. split; [|split_and!].
  - split.
    + rewrite Hploop, fmap_app. apply NoDup_app. split_and!; [| |done].
      * rewrite Hloop0. eapply sublist_NoDup; [exact Hnd|].
        apply fmap_sublist, sublist_filter.
      * intros x (a1 & -> & H1)%list_elem_of_fmap (a2 & Heq & H2)%list_elem_of_fmap.
        rewrite Hloop0 in H1. apply list_elem_of_filter in H1 as [_ H1].
        specialize (Hids a1 H1). destruct (Hpids a2 H2). lia.
    + intros a. rewrite Hploop. intros [Ha|Ha]%elem_of_app.
      * rewrite Hloop0 in Ha. apply list_elem_of_filter in Ha as [_ Ha].
        specialize (Hids a Ha). lia.
      * destruct (Hpids a Ha). lia.
    + intros a. rewrite Hploop, Hpnow, Hnow0. intros [Ha|Ha]%elem_of_app.
      * rewrite Hloop0 in Ha. apply list_elem_of_filter in Ha as [_ Ha]. auto.
      * destruct (Hpids a Ha) as [_ ->]. rewrite Hnow0. apply Qle_refl.
    + intros a. rewrite Hploop. intros [Ha|Ha]%elem_of_app; auto.
    + intros i c h Hc Hin. specialize (Hkept i c Hc).
      destruct (effect_kept _ _).
      * destruct Hkept as (c_old & Hi & Heq & _). rewrite Heq in Hin.
        specialize (Hh i c_old h Hi Hin). lia.
      * destruct Hkept as [Hfr _]. specialize (Hfr h Hin). lia.
    + intros i c mv Hc Hm.
      destruct (Hmotion i c mv Hc Hm) as [(c_old & Hco & Hmo)|?]; [|lia].
      specialize (Hmv _ _ _ Hco Hmo). lia.
    + intros i1 i2 c1 c2 mv Hc1 Hc2 Hm1 Hm2.
      destruct (Hmotion i1 c1 mv Hc1 Hm1) as [(o1 & Ho1 & Hmo1)|Hr1],
               (Hmotion i2 c2 mv Hc2 Hm2) as [(o2 & Ho2 & Hmo2)|Hr2].
      * by eapply Hinj.
      * specialize (Hmv _ _ _ Ho1 Hmo1). lia.
      * specialize (Hmv _ _ _ Ho2 Hmo2). lia.
      * apply (Hfresh i1 i2 c1 c2 mv); try done. lia.
  - intros i k t j hs hf Hc. specialize (Hkept i _ Hc).
    assert (effect_kept (mjoin (olds !! i)) (mjoin (news !! i)) = false) as Hk.
    { assert (news !! i = Some (Some (k, FadeOutText t (Some j)))) as ->.
      { rewrite <- Hview, list_lookup_fmap, Hc. done. }
      simpl. unfold effect_kept. destruct (mjoin (olds !! i)) as [[]|]; try done.
      rewrite (bool_decide_eq_false_2 (Some j = None)) by done.
      by rewrite andb_false_r. }
    rewrite Hk in Hkept. destruct Hkept as [_ Hfade].
    destruct (Hfade _ _ _ _ _ eq_refl) as (a & Ha & ?).
    exists a. split; [|done]. rewrite Hploop. apply elem_of_app. auto.
  - congruence.
  - congruence.
  - congruence.
  - lia.
  - intros mv Hlt. rewrite Hpval by lia. by rewrite Hval0.
  - intros a. rewrite Hploop. intros [Ha|Ha]%elem_of_app.
    + left. rewrite Hloop0 in Ha. by apply list_elem_of_filter in Ha as [_ Ha].
    + right. destruct (Hpids a Ha) as [_ ->]. done.
Qed.

(** *** One render *)

Lemma DiffText_lookup p rp i x :
  DiffText p rp !! i = Some x →
  ∃ part, changes_of p !! i = Some part
          ∧ x = render_part (showRemoved_of p) (animateChanges_of p) rp i part.
Proof.
  unfold DiffText, render_changes. rewrite list_lookup_imap.
  destruct (changes_of p !! i) as [part|]; [|done].
  intros [= <-]. by exists part.
Qed.

Lemma render_part_fadeout sr an rp i part k s cb :
  render_part sr an rp i part = Some (k, FadeOutText s cb) →
  k = KRemoved i ∧ cb = Some i ∧ (i ∉ rp) ∧ removed part = true ∧ s = value part
  ∧ sr = true ∧ an = true.
Proof.
  unfold render_part.
  destruct (removed part) eqn:Hr, (added part) eqn:Ha, sr, an; simpl;
    try case_bool_decide; simpl; intros [=]; subst; done.
Qed.

Lemma elem_of_removed_after idxs (rp : gset nat) i :
  i ∈ foldl (λ s index, handleRemoveComplete index s) rp idxs ↔ i ∈ rp ∨ i ∈ idxs.
Proof.
  revert rp. induction idxs as [|j idxs IH]; intros rp; simpl.
  - split; [by left | by intros [?|?%elem_of_nil]].
  - rewrite IH. unfold handleRemoveComplete.
    rewrite elem_of_union, elem_of_singleton, elem_of_cons. tauto.
Qed.

(** *** One frame *)

Lemma fired_of_records t l : fired t l = (λ x, x.2) <$> fired_records t l.
Proof.
  unfold fired, fired_records. induction l as [|a l IH]; [done|].
  simpl. destruct (a_body a) as [| |[j|]]; try done.
  destruct (finished t a); simpl; [f_equal|]; exact IH.
Qed.

Lemma elem_of_fired_records t l x :
  x ∈ fired_records t l ↔
  ∃ a, a ∈ l ∧ a_body a = Fade (Some x.2) ∧ finished t a = true
       ∧ x.1 = (t, a_start a).
Proof.
  unfold fired_records. rewrite list_elem_of_omap. split.
  - intros (a & Ha & Hx). exists a. split; [done|].
    destruct (a_body a) as [| |[j|]]; try done.
    destruct (finished t a); [|done]. by injection Hx as <-.
  - intros (a & Ha & Hb & Hf & Hx). exists a. split; [done|].
    rewrite Hb, Hf. destruct x as [[] ?]. simpl in *. by injection Hx as -> ->.
Qed.

Lemma foldl_tick_fields t l : ∀ r,
  now (foldl (tick t) r l) = now r ∧ next (foldl (tick t) r l) = next r
  ∧ frame_loop (foldl (tick t) r l) = frame_loop r
  ∧ completions (foldl (tick t) r l) = completions r ++ fired_records t l.
Proof.
  induction l as [|a l IH]; intros r.
  { simpl. by rewrite (right_id_L [] (++)). }
  simpl. destruct (IH (tick t r a)) as (-> & -> & -> & ->).
  unfold tick, fired_records. simpl.
  destruct (a_body a) as [mv s| |[j|]]; simpl; try done.
  destruct (finished t a); simpl; [|done].
  by rewrite <- (assoc_L (++)).
Qed.

Lemma run_frame_fields t r :
  now (run_frame t r) = t ∧ next (run_frame t r) = next r
  ∧ frame_loop (run_frame t r) = filter (λ a, finished t a = false) (frame_loop r)
  ∧ completions (run_frame t r) = completions r ++ fired_records t (frame_loop r).
Proof.
  unfold run_frame. simpl.
  destruct (foldl_tick_fields t (frame_loop r) r) as (_ & -> & _ & ->). done.
Qed.

Lemma run_frame_idle t r :
  frame_loop r = [] →
  frame_loop (run_frame t r) = [] ∧ motion_values (run_frame t r) = motion_values r
  ∧ updates (run_frame t r) = updates r ∧ completions (run_frame t r) = completions r.
Proof. unfold run_frame. intros ->. done. Qed.

Lemma loop_ok_run_frame t r cs :
  now r <= t → loop_ok r cs → loop_ok (run_frame t r) cs.
Proof.
  intros Ht [Hnd Hids Hst Hown Hh Hmv Hinj].
  destruct (run_frame_fields t r) as (Hnow & Hnext & Hloop & _).
  split; rewrite ?Hloop, ?Hnext, ?Hnow.
  - eapply sublist_NoDup; [exact Hnd|]. apply fmap_sublist, sublist_filter.
  - intros a [_ Ha]%list_elem_of_filter. auto.
  - intros a [_ Ha]%list_elem_of_filter. specialize (Hst a Ha). lra.
  - intros a [_ Ha]%list_elem_of_filter. auto.
  - done.
  - done.
  - done.
Qed.

(** A fade with a callback is the fade of the [FadeOutText] at the index
    the callback is bound to; that index is not in [removedParts]. *)
Lemma fade_owner r cs p rp a i :
  loop_ok r cs → view <$> cs = DiffText p rp →
  a ∈ frame_loop r → a_body a = Fade (Some i) →
  (i ∉ rp) ∧ a_delay a = fade_delay ∧ a_duration a = fade_duration
  ∧ ∃ k s hs, cs !! i = Some (Some (IFadeOut k s (Some i) hs (a_id a))).
Proof.
  intros Hok Hview Ha Hb.
  destruct (lo_owned _ _ Hok a Ha) as (j & c & Hj & Hown).
  unfold owns in Hown. rewrite Hb in Hown.
  destruct c as [| k s cb hs hf |]; try done.
  destruct Hown as (<- & <- & Hdl & Hdu).
  assert (DiffText p rp !! j = Some (Some (k, FadeOutText s (Some i)))) as Hd.
  { rewrite <- Hview, list_lookup_fmap, Hj. done. }
  apply DiffText_lookup in Hd as (part & _ & Hr). symmetry in Hr.
  apply render_part_fadeout in Hr as (-> & [= <-] & Hnot & _).
  split_and!; try done. by exists (KRemoved i), s, hs.
Qed.

Lemma NoDup_omap {A B} (f : A → option B) (l : list A) :
  NoDup l →
  (∀ x y z, x ∈ l → y ∈ l → f x = Some z → f y = Some z → x = y) →
  NoDup (omap f l).
Proof.
  induction l as [|x l IH]; intros Hnd Hinj; [constructor|].
  apply NoDup_cons in Hnd as [Hx Hnd]. cbn [omap list_omap].
  assert (NoDup (omap f l)) as IH'.
  { apply IH; [done|]. intros y1 y2 z H1 H2. apply Hinj; by right. }
  destruct (f x) as [z|] eqn:Hfx; [|done].
  apply NoDup_cons. split; [|done].
  intros (y & Hy & Hfy)%list_elem_of_omap. apply Hx.
  by rewrite (Hinj x y z) by (first [by left | by right | done]).
Qed.

(** The fades that end at one frame belong to different parts, none of
    which is in [removedParts] yet, and each ends no sooner than its delay
    and its duration after its start. *)
Lemma fired_records_spec t r cs p rp x :
  loop_ok r cs → view <$> cs = DiffText p rp →
  x ∈ fired_records t (frame_loop r) →
  (x.2 ∉ rp) ∧ x.1.2 + fade_delay + fade_duration <= x.1.1.
Proof.
  intros Hok Hview (a & Ha & Hb & Hfin & Hx)%elem_of_fired_records.
  destruct (fade_owner _ _ _ _ _ _ Hok Hview Ha Hb) as (Hnot & Hdl & Hdu & _).
  split; [done|]. rewrite Hx. simpl. unfold finished, elapsed in Hfin.
  apply Qle_bool_iff in Hfin. rewrite Hdl, Hdu in Hfin. lra.
Qed.

Lemma fired_nodup t r cs p rp :
  loop_ok r cs → view <$> cs = DiffText p rp → NoDup (fired t (frame_loop r)).
Proof.
  intros Hok Hview. apply NoDup_omap.
  { eapply NoDup_fmap_1, (lo_nodup _ _ Hok). }
  intros a1 a2 i Ha1 Ha2 H1 H2.
  assert (∀ a, a ∈ frame_loop r →
            match a_body a with
            | Fade (Some index) => if finished t a then Some index else None
            | _ => None
            end = Some i →
            ∃ k s hs, cs !! i = Some (Some (IFadeOut k s (Some i) hs (a_id a)))) as Hid.
  { intros a Ha Hf.
    assert (a_body a = Fade (Some i)) as Hb.
    { destruct (a_body a) as [| |[j|]]; try done.
      destruct (finished t a); [|done]. by injection Hf as ->. }
    by destruct (fade_owner _ _ _ _ _ _ Hok Hview Ha Hb) as (_ & _ & _ & ?). }
  destruct (Hid a1 Ha1 H1) as (k1 & s1 & hs1 & Hc1).
  destruct (Hid a2 Ha2 H2) as (k2 & s2 & hs2 & Hc2).
  apply (NoDup_fmap_eq a_id (frame_loop r)); [apply Hok|done..|congruence].
Qed.

(** *** The invariant of a mounted component is kept *)

Local Arguments run_frame : simpl never.
Local Arguments stop_all : simpl never.
Local Arguments reconcile : simpl never.

Lemma rerender_ok p rp c r :
  loop_ok r (children c) →
  NoDup ((λ x, x.2) <$> completions r) →
  (∀ x, x ∈ completions r → x.1.2 + fade_delay + fade_duration <= x.1.1) →
  (∀ x, x ∈ completions r → x.2 ∈ rp) →
  world_ok (rerender p rp c r).
Proof.
  intros Hok Hnd Htime Hin. unfold rerender.
  destruct (reconcile (children c) (DiffText p rp) r) as [r1 cs] eqn:E.
  apply reconcile_spec in E as (Hview & Hok1 & Halive & _ & _ & Hcomp & _); [|done].
  split; cbn [rt mounted]; rewrite ?Hcomp; try done.
Qed.

Lemma loop_ok_boot t0 : loop_ok (boot t0) [].
Proof.
  split; simpl; try (by intros ? ?%elem_of_nil); try (by intros []); constructor.
Qed.

Lemma mount_ok t0 p : world_ok (mount t0 p).
Proof.
  apply rerender_ok; simpl.
  - apply loop_ok_boot.
  - constructor.
  - by intros ? ?%elem_of_nil.
  - by intros ? ?%elem_of_nil.
Qed.

Lemma frame_ok t w : world_ok w → world_ok (frame t w).
Proof.
  intros [Hnd Htime Htree]. unfold frame.
  destruct (Qle_bool (now (rt w)) t) eqn:Ht; [|by split].
  apply Qle_bool_iff in Ht.
  destruct (run_frame_fields t (rt w)) as (Hnow & Hnext & Hloop & Hcomp).
  destruct (mounted w) as [c|] eqn:Hm.
  2:{ destruct (run_frame_idle t (rt w) Htree) as (Hl & _ & _ & Hc).
      split; cbn [rt mounted]; rewrite ?Hc; done. }
  destruct Htree as (Hok & Halive & Hview & Hdone).
  pose proof (loop_ok_run_frame t _ _ Ht Hok) as Hok2.
  pose proof (fired_nodup t _ _ _ _ Hok Hview) as Hndf.
  rewrite fired_of_records in Hndf.
  pose proof (λ x, fired_records_spec t _ _ _ _ x Hok Hview) as Hspec.
  assert (NoDup ((λ x, x.2) <$> completions (run_frame t (rt w)))) as Hnd2.
  { rewrite Hcomp, fmap_app. apply NoDup_app. split_and!; [done| |done].
    intros i (x & -> & Hx)%list_elem_of_fmap (y & Hxy & Hy)%list_elem_of_fmap.
    destruct (Hspec y Hy) as (Hnot & _). apply Hnot. rewrite <- Hxy. auto. }
  assert (∀ x, x ∈ completions (run_frame t (rt w)) →
               x.1.2 + fade_delay + fade_duration <= x.1.1) as Htime2.
  { intros x. rewrite Hcomp. intros [Hx|Hx]%elem_of_app; [auto|].
    by destruct (Hspec x Hx) as (_ & ?). }
  destruct (fired t (frame_loop (rt w))) as [|j idxs] eqn:Hfired.
  - assert (fired_records t (frame_loop (rt w)) = []) as Hnone.
    { rewrite fired_of_records in Hfired. by apply fmap_nil_inv in Hfired. }
    rewrite Hnone, (right_id_L [] (++)) in Hcomp.
    split; cbn [rt mounted]; rewrite ?Hcomp; try done. split_and!; try done.
    intros i k s j hs hf Hc.
    destruct (Halive i k s j hs hf Hc) as (a & Ha & Hid & Hb).
    exists a. split; [|done]. rewrite Hloop. apply list_elem_of_filter.
    split; [|done]. destruct (finished t a) eqn:Hf; [|done].
    exfalso. eapply (not_elem_of_nil (t, a_start a, j)). rewrite <- Hnone.
    apply elem_of_fired_records. exists a. done.
  - rewrite <- Hfired. apply rerender_ok; try done.
    intros x Hx. apply elem_of_removed_after.
    rewrite Hcomp in Hx. apply elem_of_app in Hx as [Hx|Hx]; [auto|].
    right. rewrite fired_of_records. apply list_elem_of_fmap. by exists x.
Qed.

Lemma unmount_loop r cs :
  loop_ok r cs →
  frame_loop (stop_all (concat (from_option handles [] <$> cs)) r) = [].
Proof.
  intros Hok. rewrite stop_all_frame_loop. apply elem_of_nil_inv.
  intros a [Hnot Ha]%list_elem_of_filter. apply Hnot.
  destruct (lo_owned _ _ Hok a Ha) as (i & c & Hi & Hown).
  apply elem_of_concat. exists (handles c). split; [by apply owns_handle|].
  apply list_elem_of_fmap. exists (Some c). split; [done|].
  by eapply list_elem_of_lookup_2.
Qed.

Lemma step_ok w ev : world_ok w → world_ok (step w ev).
Proof.
  intros Hw. destruct ev as [p|t|]; simpl.
  - destruct (mounted w) as [c|] eqn:Hm; [|done].
    destruct Hw as [Hnd Htime Htree]. rewrite Hm in Htree.
    destruct Htree as (Hok & _ & _ & Hdone). by apply rerender_ok.
  - by apply frame_ok.
  - destruct (mounted w) as [c|] eqn:Hm; [|done].
    destruct Hw as [Hnd Htime Htree]. rewrite Hm in Htree.
    destruct Htree as (Hok & _).
    destruct (stop_all_fields (concat (from_option handles [] <$> children c)) (rt w))
      as (_ & _ & _ & _ & Hc).
    split; cbn [rt mounted]; rewrite ?Hc; try done. by apply unmount_loop.
Qed.

Lemma run_ok evs : ∀ w, world_ok w → world_ok (run w evs).
Proof.
  induction evs as [|ev evs IH]; intros w Hw; [done|].
  simpl. apply IH. by apply step_ok.
Qed.

Lemma reconcile_logs olds news r :
  now (reconcile olds news r).1 = now r
  ∧ updates (reconcile olds news r).1 = updates r
  ∧ completions (reconcile olds news r).1 = completions r.
Proof.
  unfold reconcile.
  destruct (stop_all_fields (stale_handles olds news) r) as (Hn & _ & _ & Hu & Hc).
  destruct (commit olds news (stop_all (stale_handles olds news) r)) as [r1 cs] eqn:E.
  apply commit_spec in E as (_ & added & [] & _). simpl. split_and!; congruence.
Qed.

Lemma rerender_fields p rp c r :
  now (rt (rerender p rp c r)) = now r
  ∧ updates (rt (rerender p rp c r)) = updates r
  ∧ completions (rt (rerender p rp c r)) = completions r
  ∧ ∃ cs, mounted (rerender p rp c r) = Some (mkComponent p rp cs).
Proof.
  unfold rerender. pose proof (reconcile_logs (children c) (DiffText p rp) r) as H.
  destruct (reconcile (children c) (DiffText p rp) r) as [r1 cs].
  simpl in *. destruct H as (? & ? & ?). split_and!; try done. by exists cs.
Qed.

Lemma frame_completions t w :
  Qle_bool (now (rt w)) t = true →
  completions (rt (frame t w))
  = completions (rt w) ++ fired_records t (frame_loop (rt w)).
Proof.
  intros Ht. unfold frame. rewrite Ht.
  destruct (run_frame_fields t (rt w)) as (_ & _ & _ & Hcomp).
  destruct (mounted w) as [c|]; [|done].
  destruct (fired t (frame_loop (rt w))); [done|].
  destruct (rerender_fields (props c)
              (foldl (λ s index, handleRemoveComplete index s) (removedParts c) (n :: l))
              c (run_frame t (rt w))) as (_ & _ & -> & _).
  done.
Qed.

(** Once unmounted, always unmounted; and nothing moves any more. *)
Lemma step_unmounted w ev :
  mounted w = None → frame_loop (rt w) = [] →
  mounted (step w ev) = None ∧ frame_loop (rt (step w ev)) = []
  ∧ updates (rt (step w ev)) = updates (rt w)
  ∧ completions (rt (step w ev)) = completions (rt w)
  ∧ motion_values (rt (step w ev)) = motion_values (rt w).
Proof.
  intros Hm Hl. destruct ev as [p|t|]; simpl; rewrite ?Hm; try done.
  unfold frame. destruct (Qle_bool _ _); [|done]. rewrite Hm.
  destruct (run_frame_idle t (rt w) Hl) as (? & ? & ? & ?). done.
Qed.

Lemma run_unmounted evs : ∀ w,
  mounted w = None → frame_loop (rt w) = [] →
  mounted (run w evs) = None
  ∧ updates (rt (run w evs)) = updates (rt w)
  ∧ completions (rt (run w evs)) = completions (rt w)
  ∧ motion_values (rt (run w evs)) = motion_values (rt w).
Proof.
  induction evs as [|ev evs IH]; intros w Hm Hl; [done|].
  simpl. destruct (step_unmounted w ev Hm Hl) as (Hm' & Hl' & <- & <- & <-).
  by apply IH.
Qed.

Lemma step_mounted_inv w ev c' :
  mounted (step w ev) = Some c' → ∃ c, mounted w = Some c.
Proof.
  destruct (mounted w) as [c|] eqn:Hm; [by exists c|].
  destruct ev as [p|t|]; simpl; rewrite ?Hm; try done.
  unfold frame. destruct (Qle_bool _ _); rewrite ?Hm; done.
Qed.

Lemma step_removedParts w ev c c' :
  mounted w = Some c → mounted (step w ev) = Some c' →
  removedParts c ⊆ removedParts c'
  ∧ (∀ p, ev = SetProps p → removedParts c' = removedParts c)
  ∧ (ev = Unmount → False).
Proof.
  intros Hm. destruct ev as [p|t|]; simpl; rewrite ?Hm.
  - destruct (rerender_fields p (removedParts c) c (rt w)) as (_ & _ & _ & cs & ->).
    intros [= <-]. simpl. by split_and!.
  - unfold frame. destruct (Qle_bool _ _); rewrite ?Hm.
    2:{ intros [= <-]. by split_and!. }
    destruct (fired t (frame_loop (rt w))) as [|j idxs].
    { intros [= <-]. by split_and!. }
    destruct (rerender_fields (props c)
                (foldl (λ s index, handleRemoveComplete index s) (removedParts c) (j :: idxs))
                c (run_frame t (rt w))) as (_ & _ & _ & cs & ->).
    intros [= <-]. cbn [removedParts]. split_and!; try done.
    intros i Hi. apply (elem_of_removed_after (j :: idxs)). by left.
  - done.
Qed.

Lemma run_removedParts evs : ∀ w c c',
  mounted w = Some c → mounted (run w evs) = Some c' →
  removedParts c ⊆ removedParts c'.
Proof.
  induction evs as [|ev evs IH]; intros w c c' Hm.
  { simpl. rewrite Hm. by intros [= <-]. }
  simpl. intros Hm'.
  destruct (mounted (step w ev)) as [c1|] eqn:Hm1.
  - destruct (step_removedParts w ev c c1 Hm Hm1) as (Hsub & _).
    etrans; [exact Hsub|]. by eapply IH.
  - exfalso.
    assert (∀ evs w, mounted w = None → mounted (run w evs) = None) as Hnone.
    { clear. induction evs as [|ev evs IH]; intros w Hm; [done|].
      simpl. apply IH. destruct (mounted (step w ev)) eqn:E; [|done].
      apply step_mounted_inv in E as [c0 Hc]. congruence. }
    rewrite (Hnone evs _ Hm1) in Hm'. done.
Qed.

End RuntimeFacts.

(** ** The claims about the component over time *)

Section Claims.
Local Open Scope Q_scope.

Lemma render_part_kept sr an rp i part :
  removed part = false →
  render_part sr an rp i part = render_part sr an ∅ i part
  ∧ is_Some (render_part sr an rp i part).
Proof.
  intros Hr. unfold render_part. rewrite Hr. simpl.
  destruct (added part), an; eauto.
Qed.

Lemma render_part_hidden an rp i part :
  kind_of part = Removed → render_part false an rp i part = None.
Proof.
  unfold kind_of, render_part.
  destruct (added part), (removed part); try done.
  by destruct (bool_decide _).
Qed.


(** With [showRemoved] off nothing in the frame loop is a strike or a
    fade. *)
Lemma hidden_loop_reveals w c :
  world_ok w → mounted w = Some c → showRemoved_of (props c) = false →
  ∀ a, a ∈ frame_loop (rt w) → ∃ mv s, a_body a = Reveal mv s.
Proof.
  intros [_ _ Htree] Hm Hsr a Ha. rewrite Hm in Htree.
  destruct Htree as (Hok & _ & Hview & _).
  destruct (lo_owned _ _ Hok a Ha) as (i & ch & Hi & Hown).
  destruct (a_body a) as [mv s| |cb] eqn:Hb; [by eauto| |];
    exfalso; unfold owns in Hown; rewrite Hb in Hown;
    (destruct ch as [|k s cb' hs hf|]; [done| |done]);
    (assert (DiffText (props c) (removedParts c) !! i
             = Some (Some (k, FadeOutText s cb'))) as Hd
       by (rewrite <- Hview, list_lookup_fmap, Hi; done));
    apply DiffText_lookup in Hd as (part & _ & Hr); symmetry in Hr;
    apply render_part_fadeout in Hr; destruct Hr as (_ & _ & _ & _ & _ & Hsr' & _);
    congruence.
Qed.

Lemma hidden_run evs : ∀ w,
  world_ok w → completions (rt w) = [] →
  (∀ c, mounted w = Some c → showRemoved_of (props c) = false) →
  Forall keeps_removed_hidden evs →
  completions (rt (run w evs)) = []
  ∧ ∀ c, mounted (run w evs) = Some c → showRemoved_of (props c) = false.
Proof.
  induction evs as [|ev evs IH]; intros w Hok Hdone Hsr Hevs; [done|].
  apply Forall_cons in Hevs as [Hev Hevs]. simpl.
  apply IH; [by apply step_ok| | |done].
  - destruct ev as [p|t|]; simpl.
    + destruct (mounted w) as [c|]; [|done].
      by destruct (rerender_fields p (removedParts c) c (rt w)) as (_ & _ & -> & _).
    + destruct (Qle_bool (now (rt w)) t) eqn:Ht.
      2:{ unfold frame. by rewrite Ht. }
      rewrite frame_completions, Hdone by done. simpl.
      apply elem_of_nil_inv. intros x (a & Ha & Hb & _)%elem_of_fired_records.
      destruct (mounted w) as [c|] eqn:Hm.
      * destruct (hidden_loop_reveals w c Hok Hm (Hsr c eq_refl) a Ha) as (? & ? & ?).
        congruence.
      * destruct Hok as [_ _ Htree]. rewrite Hm in Htree. rewrite Htree in Ha.
        by apply elem_of_nil in Ha.
    + destruct (mounted w) as [c|]; [|done]. simpl.
      by destruct (stop_all_fields (concat (from_option handles [] <$> children c)) (rt w))
        as (_ & _ & _ & _ & ->).
  - intros c' Hm'. destruct ev as [p|t|]; simpl in Hm'.
    + destruct (mounted w) as [c|] eqn:Hm; [|by rewrite Hm in Hm'].
      destruct (rerender_fields p (removedParts c) c (rt w)) as (_ & _ & _ & cs & Hr).
      rewrite Hr in Hm'. by injection Hm' as <-.
    + unfold frame in Hm'. destruct (Qle_bool (now (rt w)) t); [|by apply Hsr].
      destruct (mounted w) as [c|] eqn:Hm; [|done].
      destruct (fired t (frame_loop (rt w))) as [|j idxs].
      { injection Hm' as <-. by apply Hsr. }
      destruct (rerender_fields (props c)
                  (foldl (λ s index, handleRemoveComplete index s) (removedParts c) (j :: idxs))
                  c (run_frame t (rt w))) as (_ & _ & _ & cs & Hr).
      rewrite Hr in Hm'. injection Hm' as <-. simpl. by apply Hsr.
    + destruct (mounted w) eqn:Hm; [done|]. apply Hsr. congruence.
Qed.

End Claims.

(** C10. The set of completed removals only grows while the component is
    mounted: the updater of the completion callback returns a superset of
    the previous set that holds the reported index, no event takes an index
    out, new properties leave the set as it is, and a part that is not
    flagged [removed] (an added or an unchanged part) is rendered as if the
    set were empty. *)
Theorem removedParts_only_grows :
  (∀ index prev, prev ⊆ handleRemoveComplete index prev
                 ∧ index ∈ handleRemoveComplete index prev)
  ∧ (∀ w evs c c', mounted w = Some c → mounted (run w evs) = Some c' →
       removedParts c ⊆ removedParts c')
  ∧ (∀ w p c c', mounted w = Some c → mounted (step w (SetProps p)) = Some c' →
       removedParts c' = removedParts c)
  ∧ (∀ sr an rp i part, removed part = false →
       render_part sr an rp i part = render_part sr an ∅ i part
       ∧ is_Some (render_part sr an rp i part))
  ∧ (∀ sr an rp i part, render_part sr an rp i part = None →
       is_Some (render_part sr an ∅ i part) → removed part = true ∧ i ∈ rp).
Proof.
  split_and!.
  - intros index prev. unfold handleRemoveComplete. set_solver.
  - intros w evs c c'. apply run_removedParts.
  - intros w p c c' Hm Hm'.
    destruct (step_removedParts w (SetProps p) c c' Hm Hm') as (_ & Heq & _). eauto.
  - apply render_part_kept.
  - intros sr an rp i part Hnone Hsome.
    destruct (removed part) eqn:Hr.
    + split; [done|]. destruct (decide (i ∈ rp)) as [|Hni]; [done|].
      exfalso. unfold render_part in Hnone, Hsome. rewrite Hr in Hnone, Hsome.
      rewrite bool_decide_eq_false_2 in Hnone by done.
      rewrite bool_decide_eq_false_2 in Hsome by set_solver.
      simpl in *. rewrite Hnone in Hsome. by destruct Hsome.
    + destruct (render_part_kept sr an rp i part Hr) as [_ [x Hx]]. congruence.
Qed.

(** Witness for C10, on the set [{2}] and the index 5, and on an unchanged
    part at index 2. *)
Lemma removedParts_only_grows_witness :
  5%nat ∈ handleRemoveComplete 5 {[2%nat]}
  ∧ render_part true true {[2%nat]} 2 (mkChange (txt "a") false false)
    = render_part true true ∅ 2 (mkChange (txt "a") false false).
Proof.
  destruct removedParts_only_grows as (Hadd & _ & _ & Hkept & _). split.
  - apply (Hadd 5%nat {[2%nat]}).
  - apply (Hkept true true {[2%nat]} 2%nat (mkChange (txt "a") false false)).
    reflexivity.
Defined.

(** C6. While [showRemoved] is off, no callback of a removed part is ever
    called, the frame loop never holds a strike or a fade, a removed part
    has no rendered output and no child, and this is so whatever
    [animateChanges] is. *)
Theorem hidden_removals_never_animate (t0 : Q) (p : DiffTextProps) (evs : list event) :
  showRemoved_of p = false →
  Forall keeps_removed_hidden evs →
  completions (rt (run (mount t0 p) evs)) = []
  ∧ (∀ a, a ∈ frame_loop (rt (run (mount t0 p) evs)) → ∃ mv s, a_body a = Reveal mv s)
  ∧ (∀ c i part, mounted (run (mount t0 p) evs) = Some c →
       changes_of (props c) !! i = Some part → kind_of part = Removed →
       DiffText (props c) (removedParts c) !! i = Some None
       ∧ children c !! i = Some None)
  ∧ (∀ an rp i part, kind_of part = Removed → render_part false an rp i part = None).
Proof.
  intros Hsr Hevs.
  pose proof (run_ok evs _ (mount_ok t0 p)) as Hok.
  assert (completions (rt (mount t0 p)) = []) as Hdone0.
  { unfold mount. by destruct (rerender_fields p ∅ (mkComponent p ∅ []) (boot t0))
      as (_ & _ & -> & _). }
  assert (∀ c, mounted (mount t0 p) = Some c → showRemoved_of (props c) = false) as Hsr0.
  { unfold mount. destruct (rerender_fields p ∅ (mkComponent p ∅ []) (boot t0))
      as (_ & _ & _ & cs & ->). by intros c [= <-]. }
  destruct (hidden_run evs _ (mount_ok t0 p) Hdone0 Hsr0 Hevs) as [Hdone Hhid].
  split_and!; [done| | |apply render_part_hidden].
  - intros a Ha. destruct (mounted (run (mount t0 p) evs)) as [c|] eqn:Hm.
    + exact (hidden_loop_reveals _ c Hok Hm (Hhid c eq_refl) a Ha).
    + destruct Hok as [_ _ Htree]. rewrite Hm in Htree. rewrite Htree in Ha.
      by apply elem_of_nil in Ha.
  - intros c i part Hm Hpart Hkind.
    assert (DiffText (props c) (removedParts c) !! i = Some None) as Hd.
    { unfold DiffText, render_changes. rewrite list_lookup_imap, Hpart. simpl.
      rewrite (Hhid c Hm). by rewrite render_part_hidden. }
    split; [done|]. destruct Hok as [_ _ Htree]. rewrite Hm in Htree.
    destruct Htree as (_ & _ & Hview & _).
    rewrite <- Hview, list_lookup_fmap in Hd.
    destruct (children c !! i) as [[ch|]|]; done.
Qed.

(** Witness for C6: "ab" becomes "a" with [showRemoved] off, a frame after
    one second, the same properties again, another frame. *)
Lemma hidden_removals_never_animate_witness :
  completions (rt (run (mount 0
    (mkProps (txt "ab") (txt "a") (Some Chars) (Some false) None None))
    [Frame 1; SetProps (mkProps (txt "ab") (txt "a") (Some Chars) (Some false) None None);
     Frame 2])) = [].
Proof.
  apply (hidden_removals_never_animate 0
           (mkProps (txt "ab") (txt "a") (Some Chars) (Some false) None None)).
  - reflexivity.
  - repeat constructor.
Defined.

(** C7. Every animation in the frame loop belongs to a child that is
    mounted now, under the handle that child keeps: the animations of a
    child that went away were stopped by its cleanup.  After the component
    is unmounted the frame loop is empty, and whatever comes afterwards sets
    no motion value and calls no completion callback. *)
Theorem unmount_cancels_animations (t0 : Q) (p : DiffTextProps) (evs evs' : list event) :
  (∀ a, a ∈ frame_loop (rt (run (mount t0 p) evs)) →
     ∃ c i ch, mounted (run (mount t0 p) evs) = Some c
               ∧ children c !! i = Some (Some ch) ∧ owns ch a
               ∧ a_id a ∈ handles ch)
  ∧ frame_loop (rt (step (run (mount t0 p) evs) Unmount)) = []
  ∧ updates (rt (run (step (run (mount t0 p) evs) Unmount) evs'))
    = updates (rt (step (run (mount t0 p) evs) Unmount))
  ∧ completions (rt (run (step (run (mount t0 p) evs) Unmount) evs'))
    = completions (rt (step (run (mount t0 p) evs) Unmount))
  ∧ motion_values (rt (run (step (run (mount t0 p) evs) Unmount) evs'))
    = motion_values (rt (step (run (mount t0 p) evs) Unmount)).
Proof.
  pose proof (run_ok evs _ (mount_ok t0 p)) as Hok.
  pose proof (step_ok _ Unmount Hok) as Hok'.
  set (w := run (mount t0 p) evs) in *.
  split.
  { intros a Ha. destruct Hok as [_ _ Htree].
    destruct (mounted w) as [c|] eqn:Hm.
    - destruct Htree as (Hl & _). destruct (lo_owned _ _ Hl a Ha) as (i & ch & Hi & Hown).
      exists c, i, ch. split_and!; try done. by apply owns_handle.
    - rewrite Htree in Ha. by apply elem_of_nil in Ha. }
  assert (mounted (step w Unmount) = None) as Hm'
    by (unfold step; destruct (mounted w) eqn:E; [reflexivity | exact E]).
  assert (frame_loop (rt (step w Unmount)) = []) as Hl'.
  { destruct Hok' as [_ _ Htree]. by rewrite Hm' in Htree. }
  split; [done|].
  by destruct (run_unmounted evs' _ Hm' Hl') as (_ & ? & ? & ?).
Qed.

(** Witness for C7: "ab" becomes "ac"; the component is unmounted 0.2
    seconds into both animations and frames keep coming. *)
Lemma unmount_cancels_animations_witness :
  updates (rt (run (mount 0 (mkProps (txt "ab") (txt "ac") (Some Chars) None None None))
                 [Frame 0.2; Unmount; Frame 0.4; Frame 1; Frame 2]))
  = updates (rt (run (mount 0 (mkProps (txt "ab") (txt "ac") (Some Chars) None None None))
                   [Frame 0.2; Unmount])).
Proof.
  exact (proj1 (proj2 (proj2
    (unmount_cancels_animations 0
       (mkProps (txt "ab") (txt "ac") (Some Chars) None None None)
       [Frame 0.2] [Frame 0.4; Frame 1; Frame 2])))).
Defined.

(** C2, on the code: the set of completed removals is kept when the
    properties change.  After the removal of "b" at index 1 has faded, new
    texts whose diff has another removal at index 1 are rendered without
    it, although that removal was never shown; with an empty set it would
    be shown. *)
Theorem stale_index_hides_new_removal :
  (∀ w p c c', mounted w = Some c → mounted (step w (SetProps p)) = Some c' →
     removedParts c' = removedParts c)
  ∧ completions (rt (run (mount 0 drop_b) [Frame 1])) = [(1, 0, 1%nat)]%Q
  ∧ (removedParts <$> mounted (run (mount 0 drop_b) [Frame 1; SetProps drop_y]))
    = Some {[1%nat]}
  ∧ changes_of drop_y = [mkChange (txt "x") false false; mkChange (txt "y") false true]
  ∧ ((λ c, view <$> children c)
       <$> mounted (run (mount 0 drop_b) [Frame 1; SetProps drop_y]))
    = Some [Some (KUnchanged 0, Span [] (txt "x")); None]
  ∧ DiffText drop_y ∅
    = [Some (KUnchanged 0, Span [] (txt "x"));
       Some (KRemoved 1, FadeOutText (txt "y") (Some 1%nat))].
Proof.
  split.
  { intros w p c c' Hm Hm'.
    destruct (step_removedParts w (SetProps p) c c' Hm Hm') as (_ & Heq & _). eauto. }
  split_and!; vm_compute; reflexivity.
Qed.

(** C3, a counterexample: an [undefined] old text reaches the diff function
    as it is, and the render ends in the error of that call, while the empty
    text renders. *)
Lemma undefined_text_is_not_defaulted :
  diff_arguments JUndefined (JString (txt "a")) ≠ diff_arguments (JString []) (JString (txt "a"))
  ∧ DiffText_untyped JUndefined (JString (txt "a")) None None None ∅ = Thrown "TypeError"
  ∧ DiffText_untyped JNull (JString (txt "a")) None None None ∅ = Thrown "TypeError"
  ∧ DiffText_untyped (JString []) (JString (txt "a")) None None None ∅
    = Returned [Some (KAdded 0, TypewriterText (txt "a") "rgb(34, 197, 94)"
                                  "rgba(34, 197, 94, 0.15)")].
Proof. split_and!; [discriminate | reflexivity..]. Qed.

(** C3, amended.  When both texts are strings, the empty string included,
    the render returns and is the render of the typed component; the two
    texts are handed to the diff function as they came in. *)
Theorem string_texts_render_normally (oldText newText : text) (dm : option mode)
    (sr an : option bool) (cls : option string) (rp : gset nat) :
  DiffText_untyped (JString oldText) (JString newText) dm sr an rp
  = Returned (DiffText (mkProps oldText newText dm sr an cls) rp)
  ∧ ∀ a b, diff_arguments a b = (a, b).
Proof. done. Qed.

(** * The approval step and the chat routes *)

Section ApprovalFacts.
Import Js Workflow Routes.

Lemma starts_with_spec sub : ∀ s,
  starts_with sub s = true ↔ ∃ post, s = sub ++ post.
Proof.
  induction sub as [|a sub IH]; intros s; simpl.
  - split; [eauto|done].
  - destruct s as [|b s].
    + split; [done|]. by intros [post ?].
    + rewrite andb_true_iff, bool_decide_eq_true, IH. split.
      * intros [-> [post ->]]. by exists post.
      * intros [post [= -> ->]]. eauto.
Qed.

Lemma includes_spec sub : ∀ s,
  includes s sub = true ↔ ∃ pre post, s = pre ++ sub ++ post.
Proof.
  induction s as [|c s IH]; simpl; rewrite orb_true_iff, starts_with_spec.
  - split.
    + intros [[post ->]|?]; [|done]. by exists [], post.
    + intros (pre & post & H). left.
      destruct pre; [by exists post|done].
  - rewrite IH. split.
    + intros [[post ->]|(pre & post & ->)]; [by exists [], post|].
      by exists (c :: pre), post.
    + intros (pre & post & H). destruct pre as [|c' pre].
      * left. by exists post.
      * injection H as -> ->. right. eauto.
Qed.

(** A text includes a word in lower case exactly when it has a stretch
    whose lower case is the word. *)
Lemma includes_lower s (w : text) :
  includes (toLowerCase s) w = true
  ↔ ∃ pre u post, s = pre ++ u ++ post ∧ toLowerCase u = w.
Proof.
  rewrite includes_spec. unfold toLowerCase. split.
  - intros (pre & post & H).
    apply fmap_app_inv in H as (l1 & l23 & _ & H & ->). symmetry in H.
    apply fmap_app_inv in H as (l2 & l3 & -> & _ & ->).
    by exists l1, l2, l3.
  - intros (pre & u & post & -> & <-).
    exists (lower_unit <$> pre), (lower_unit <$> post). by rewrite !fmap_app.
Qed.

Lemma needsApproval_spec msgs :
  needsApproval msgs = true
  ↔ ∃ msg pre u post, msg ∈ msgs ∧ content msg = pre ++ u ++ post
      ∧ (toLowerCase u = txt "sensitive" ∨ toLowerCase u = txt "approve").
Proof.
  unfold needsApproval. rewrite existsb_exists. split.
  - intros (msg & Hin & H). apply orb_true_iff in H.
    exists msg.
    destruct H as [H|H]; apply includes_lower in H as (pre & u & post & ? & ?);
      exists pre, u, post; (split; [by apply list_elem_of_In|]); eauto.
  - intros (msg & pre & u & post & Hin & Hc & H).
    exists msg. split; [by apply list_elem_of_In|]. apply orb_true_iff.
    destruct H as [H|H]; [left|right]; apply includes_lower; eauto.
Qed.

Lemma needsApproval_head msgs :
  needsApproval msgs = true → ∃ msg rest, msgs = msg :: rest.
Proof. destruct msgs; [done|eauto]. Qed.

End ApprovalFacts.

Section RouteFacts.
Import Js Workflow Routes.

Lemma item0_strings xs : Forall is_str xs → isArray (item0 xs) = false.
Proof. destruct 1 as [|x xs [s ->] _]; done. Qed.

(** A flat list of strings is its own normal form. *)
Lemma normalizeStepPath_strings xs :
  Forall is_str xs → normalizeStepPath (VArr xs) = xs.
Proof.
  intros H. apply item0_strings in H. unfold normalizeStepPath.
  by destruct (item0 xs).
Qed.

Lemma Forall_is_str_fmap (path : list text) : Forall is_str (VStr <$> path).
Proof. apply Forall_fmap, Forall_true. intros s. by exists s. Qed.

Lemma get_resume_context data :
  get (get (resume_context data) "humanInTheLoop") "data" = data.
Proof. reflexivity. Qed.

Lemma get_suspended_entry runId stepPath :
  get (suspended_entry runId stepPath) "runId" = runId
  ∧ get (suspended_entry runId stepPath) "stepPath" = stepPath
  ∧ get (suspended_entry runId stepPath) "state" = VStr (txt "suspended").
Proof. done. Qed.

Lemma truthy_get_object v name : truthy (get v name) = true → ∃ fs, v = VObj fs.
Proof. destruct v; try done. eauto. Qed.

Lemma is_string_spec v literal : is_string v literal = true ↔ v = VStr (txt literal).
Proof.
  destruct v; simpl; try (split; [done|by intros [=]]).
  rewrite bool_decide_eq_true. split; [by intros ->|by intros [= ->]].
Qed.

(** What [extractSuspendData] returns when it does not return [null]. *)
Lemma extractSuspendData_found ctx d :
  d ≠ VNull →
  extractSuspendData ctx = d
  ↔ head (Object_values (get (get ctx "humanInTheLoop") "data")) = Some d
    ∧ truthy (get d "runId") = true ∧ truthy (get d "stepPath") = true
    ∧ get d "state" = VStr (txt "suspended").
Proof.
  intros Hd. unfold extractSuspendData, item0.
  set (data := get (get ctx "humanInTheLoop") "data"). split.
  - destruct (truthy data); simpl; [|congruence].
    destruct (head (Object_values data)) as [e|]; simpl.
    + destruct (truthy (get e "runId")) eqn:H1; simpl; [|congruence].
      destruct (truthy (get e "stepPath")) eqn:H2; simpl; [|congruence].
      destruct (is_string (get e "state") "suspended") eqn:H3; [|congruence].
      intros <-. by apply is_string_spec in H3.
    + congruence.
  - intros (Hh & H1 & H2 & H3).
    assert (truthy data = true) as ->.
    { destruct data as [| | | |s|xs|fs]; try done. by destruct s. }
    rewrite Hh. simpl. rewrite H1, H2, H3. reflexivity.
Qed.

Lemma extractSuspendData_object ctx :
  extractSuspendData ctx ≠ VNull →
  (∃ fs, extractSuspendData ctx = VObj fs) ∧ ∃ fs, ctx = VObj fs.
Proof.
  intros Hd.
  destruct (proj1 (extractSuspendData_found ctx _ Hd) eq_refl) as (Hh & H1 & _).
  split; [by apply truthy_get_object in H1|].
  destruct ctx; try done; eauto.
Qed.

End RouteFacts.

Section HandlerFacts.
Import Js Workflow Routes.

Lemma suspend_response_returned message runId result r :
  suspend_response message runId result = Returned r →
  ∃ path others, wr_suspended result = path :: others
    ∧ sr_runId r = runId ∧ sr_stepPath r = path.
Proof.
  unfold suspend_response. destruct (wr_suspended result) as [|path others]; [done|].
  intros [= <-]. by exists path, others.
Qed.

(** With suspend data in the context, [/chat] makes one call, which
    resumes the suspended run, and answers from its result. *)
Lemma chat_handler_resumes h body parsed :
  parseAdditionalContext h (additionalContext body) = Returned parsed →
  extractSuspendData parsed ≠ VNull →
  chat_handler h body
  = ([Resume (get (extractSuspendData parsed) "runId") (resumeWorkflow_data "chat")
        (normalizeStepPath (get (extractSuspendData parsed) "stepPath"))],
     match resume h (get (extractSuspendData parsed) "runId") (resumeWorkflow_data "chat")
             (normalizeStepPath (get (extractSuspendData parsed) "stepPath")) with
     | Thrown e => Error500 (Caught e) None
     | Returned result =>
         if bool_decide (wr_status result = txt "success") then ChatOutput (wr_result result)
         else if bool_decide (wr_status result = txt "suspended") then
           answer_suspended
             (createSuspendResponse (get (extractSuspendData parsed) "runId") result)
         else
           Error500 (Unexpected (txt "Resume failed with status: " ++ wr_status result))
             (Some result)
     end).
Proof.
  intros Hp Hd. unfold chat_handler. rewrite Hp.
  destruct (extractSuspendData_object _ Hd) as [[fs Hfs] _].
  rewrite Hfs. reflexivity.
Qed.

(** Without suspend data [/chat] makes one call, which starts a new run
    with the fields of the request and no stream controller. *)
Lemma chat_handler_starts h body parsed :
  parseAdditionalContext h (additionalContext body) = Returned parsed →
  extractSuspendData parsed = VNull →
  (chat_handler h body).1
  = [Start (mkChatInput (prompt body) (temperature body) (maxTokens body)
              (systemPrompt body) VUndefined (additionalContext body))].
Proof. intros Hp Hd. unfold chat_handler. by rewrite Hp, Hd. Qed.

End HandlerFacts.

(** * More on the component: keys, static rendering, restarts *)

Section RenderFacts.
Import Rendering.
Local Open Scope Q_scope.

Lemma render_part_key sr an rp i part k e :
  render_part sr an rp i part = Some (k, e) →
  key_index k = i ∧ element_text e = value part
  ∧ k = match kind_of part with
        | Added => KAdded i
        | Removed => KRemoved i
        | Unchanged => KUnchanged i
        end.
Proof.
  unfold render_part, kind_of.
  destruct (removed part), (added part), sr, an; simpl;
    try case_bool_decide; simpl; intros [=]; subst; done.
Qed.

(** Keys that carry the position of their child are pairwise distinct. *)
Lemma rendered_keys_NoDup out : ∀ n,
  (∀ i k e, out !! i = Some (Some (k, e)) → key_index k = (n + i)%nat) →
  NoDup (rendered_keys out)
  ∧ ∀ k, k ∈ rendered_keys out → (n ≤ key_index k)%nat.
Proof.
  induction out as [|x out IH]; intros n Hidx.
  { split; [constructor|]. by intros k ?%elem_of_nil. }
  destruct (IH (S n)) as [Hnd Hge].
  { intros i k e Hi. rewrite (Hidx (S i) k e Hi). lia. }
  unfold rendered_keys in *. cbn [omap list_omap].
  destruct x as [[k e]|]; simpl.
  - pose proof (Hidx 0%nat k e eq_refl) as Hk. split.
    + apply NoDup_cons. split; [|done]. intros Hin. specialize (Hge k Hin). lia.
    + intros k' [->|Hin]%elem_of_cons; [lia|]. specialize (Hge k' Hin). lia.
  - split; [done|]. intros k Hin. specialize (Hge k Hin). lia.
Qed.

(** With [animateChanges] off every rendered element is a [span]. *)
Lemma render_part_static sr rp i part k e :
  render_part sr false rp i part = Some (k, e) → ∃ st s, e = Span st s.
Proof.
  unfold render_part.
  destruct (removed part), (added part), sr; simpl;
    try case_bool_decide; simpl; intros [=]; subst; eauto.
Qed.

Lemma static_children w c :
  world_ok w → mounted w = Some c → animateChanges_of (props c) = false →
  ∀ i ch, children c !! i = Some (Some ch) → ∃ k st s, ch = ISpan k st s.
Proof.
  intros [_ _ Htree] Hm Han i ch Hch. rewrite Hm in Htree.
  destruct Htree as (_ & _ & Hview & _).
  assert (DiffText (props c) (removedParts c) !! i
          = Some (Some (instance_key ch, instance_element ch))) as Hd
    by (rewrite <- Hview, list_lookup_fmap, Hch; done).
  apply DiffText_lookup in Hd as (part & _ & Hr). symmetry in Hr.
  rewrite Han in Hr. apply render_part_static in Hr as (st & s & He).
  destruct ch; try done. eauto.
Qed.

Lemma static_loop w c :
  world_ok w → mounted w = Some c → animateChanges_of (props c) = false →
  frame_loop (rt w) = [].
Proof.
  intros Hok Hm Han. destruct (frame_loop (rt w)) as [|a l] eqn:Hl; [done|].
  exfalso. pose proof Hok as [_ _ Htree]. rewrite Hm in Htree.
  destruct Htree as (Hlo & _).
  destruct (lo_owned _ _ Hlo a) as (i & ch & Hi & Hown).
  { rewrite Hl. by left. }
  destruct (static_children w c Hok Hm Han i ch Hi) as (k & st & s & ->).
  unfold owns in Hown. by destruct (a_body a).
Qed.

Lemma world_loop_unmounted w :
  world_ok w → mounted w = None → frame_loop (rt w) = [].
Proof. intros [_ _ Htree] Hm. by rewrite Hm in Htree. Qed.

Lemma static_run evs : ∀ w,
  world_ok w →
  (∀ c, mounted w = Some c → animateChanges_of (props c) = false) →
  Forall keeps_static evs →
  updates (rt (run w evs)) = updates (rt w)
  ∧ completions (rt (run w evs)) = completions (rt w)
  ∧ ∀ c, mounted (run w evs) = Some c → animateChanges_of (props c) = false.
Proof.
  induction evs as [|ev evs IH]; intros w Hok Han Hevs; [done|].
  apply Forall_cons in Hevs as [Hev Hevs]. simpl.
  assert (frame_loop (rt w) = []) as Hloop.
  { destruct (mounted w) as [c|] eqn:Hm.
    - apply (static_loop w c); [done..|]. by apply Han.
    - by apply world_loop_unmounted. }
  assert (updates (rt (step w ev)) = updates (rt w)
          ∧ completions (rt (step w ev)) = completions (rt w)
          ∧ ∀ c, mounted (step w ev) = Some c → animateChanges_of (props c) = false)
    as (Hu & Hc & Han').
  { destruct ev as [p|t|]; simpl.
    - destruct (mounted w) as [c|] eqn:Hm; [|by rewrite Hm].
      destruct (rerender_fields p (removedParts c) c (rt w)) as (_ & -> & -> & cs & ->).
      split_and!; try done. by intros c' [= <-].
    - unfold frame. destruct (Qle_bool (now (rt w)) t); [|done].
      rewrite Hloop. simpl.
      destruct (run_frame_idle t (rt w) Hloop) as (_ & _ & Hu & Hc).
      destruct (mounted w) as [c|] eqn:Hm; simpl; split_and!; done.
    - destruct (mounted w) as [c|] eqn:Hm; [|by rewrite Hm]. simpl.
      destruct (stop_all_fields (concat (from_option handles [] <$> children c)) (rt w))
        as (_ & _ & _ & -> & ->).
      done. }
  destruct (IH (step w ev) (step_ok _ _ Hok) Han' Hevs) as (-> & -> & ?).
  by rewrite Hu, Hc.
Qed.







Lemma mount_fields t0 p :
  now (rt (mount t0 p)) = t0 ∧ completions (rt (mount t0 p)) = []
  ∧ updates (rt (mount t0 p)) = []
  ∧ (∃ cs, mounted (mount t0 p) = Some (mkComponent p ∅ cs))
  ∧ ∀ a, a ∈ frame_loop (rt (mount t0 p)) → a_start a = t0.
Proof.
  unfold mount.
  destruct (rerender_fields p ∅ (mkComponent p ∅ []) (boot t0)) as (Hn & Hu & Hc & Hcs).
  split_and!; try done.
  intros a. unfold rerender.
  destruct (reconcile _ _ _) as [r1 cs] eqn:E. cbn [rt].
  apply reconcile_spec in E as (_ & _ & _ & _ & _ & _ & _ & _ & Hsrc);
    [|apply loop_ok_boot].
  intros Ha. destruct (Hsrc a Ha) as [Hin|?]; [|done]. by apply elem_of_nil in Hin.
Qed.


End RenderFacts.

Import Rendering.




Import Js Workflow Routes.

(** X1. The approval step asks for approval exactly when some message has
    a stretch of characters that reads "sensitive" or "approve" once it is
    put in lower case: the test is a substring test that ignores case, not
    a test on whole words. *)
Theorem approval_trigger_ignores_case (msgs : list message) :
  needsApproval msgs = true
  ↔ ∃ msg pre u post, msg ∈ msgs ∧ content msg = pre ++ u ++ post
      ∧ (toLowerCase u = txt "sensitive" ∨ toLowerCase u = txt "approve").
Proof. apply needsApproval_spec. Qed.

(** X2. The approval step always returns, with or without resume data and
    whatever the messages are: the first message is read only when some
    message asked for approval.  Its output carries the input unchanged; it
    is not approved exactly when the step suspended, which is when approval
    is needed and the resume data does not approve; it suspends at most
    once, with the content of the first message in the pending response;
    and an approved output always has a feedback that is not empty. *)
Theorem approval_gate (inputData : AgentContext) (resumeData : option ResumeData) :
  ∃ suspensions out,
    userApproval inputData resumeData = Returned (suspensions, out)
    ∧ context out = inputData
    ∧ (approved out = false ↔ suspensions ≠ [])
    ∧ (approved out = false
       ↔ needsApproval (messages inputData) = true
         ∧ rd_approved <$> resumeData ≠ Some true)
    ∧ (∀ p, p ∈ suspensions →
         suspensions = [p] ∧ requiresApproval p = true
         ∧ ∃ msg rest, messages inputData = msg :: rest
             ∧ pendingResponse p = txt "Request pending approval: " ++ content msg)
    ∧ (approved out = true → ∃ c f, feedback out = Some (c :: f)).
Proof.
  unfold userApproval.
  destruct (needsApproval (messages inputData)) eqn:Hn.
  - destruct resumeData as [[[] fb]|]; simpl.
    + eexists _, _. split; [reflexivity|]. simpl. split_and!; try done.
      * split; [done|]. by intros [_ ?].
      * intros p Hp. by apply elem_of_nil in Hp.
      * intros _. destruct fb as [[|c f]|]; eauto.
    + destruct (needsApproval_head _ Hn) as (msg & rest & Hm). rewrite Hm. simpl.
      eexists _, _. split; [reflexivity|]. simpl. split_and!; try done.
      intros p ->%list_elem_of_singleton. split_and!; try done. eauto.
    + destruct (needsApproval_head _ Hn) as (msg & rest & Hm). rewrite Hm. simpl.
      eexists _, _. split; [reflexivity|]. simpl. split_and!; try done.
      intros p ->%list_elem_of_singleton. split_and!; try done. eauto.
  - simpl. eexists _, _. split; [reflexivity|]. simpl. split_and!; try done.
    + split; [done|]. by intros [? _].
    + intros p Hp. by apply elem_of_nil in Hp.
    + intros _. destruct resumeData as [[a [[|c f]|]]|]; simpl; eauto.
Qed.

(** X3. The first three steps of the workflow on a new request: the input
    reaches the approval step unchanged, with the prompt as the only
    message, a user message.  When the prompt asks for approval the run
    suspends with the prompt in the pending response and is not approved;
    otherwise it goes on, approved, with the feedback "Auto-approved". *)
Theorem approval_pipeline_on_prompt (inputData : ChatInput) :
  input (buildAgentContext (fetchContext inputData)) = inputData
  ∧ messages (buildAgentContext (fetchContext inputData))
    = [mkMessage User (prompt inputData)]
  ∧ (needsApproval [mkMessage User (prompt inputData)] = true →
       approval_pipeline inputData None
       = Returned ([mkSuspend (txt "Request pending approval: " ++ prompt inputData) true],
                   mkApproval (buildAgentContext (fetchContext inputData)) false None))
  ∧ (needsApproval [mkMessage User (prompt inputData)] = false →
       approval_pipeline inputData None
       = Returned ([], mkApproval (buildAgentContext (fetchContext inputData)) true
                         (Some (txt "Auto-approved")))).
Proof.
  split_and!.
  - by destruct inputData.
  - done.
  - intros H. unfold approval_pipeline, userApproval. simpl messages. by rewrite H.
  - intros H. unfold approval_pipeline, userApproval. simpl messages. by rewrite H.
Qed.

(** Witness for X3: a prompt with "Approve" in it suspends, another one
    does not. *)
Lemma approval_pipeline_on_prompt_witness :
  approval_pipeline (mkChatInput (txt "Please Approve this") None None None VUndefined VUndefined)
    None
  = Returned ([mkSuspend (txt "Request pending approval: Please Approve this") true],
              mkApproval (buildAgentContext (fetchContext
                (mkChatInput (txt "Please Approve this") None None None VUndefined VUndefined)))
                false None)
  ∧ approval_pipeline (mkChatInput (txt "hello") None None None VUndefined VUndefined) None
    = Returned ([], mkApproval (buildAgentContext (fetchContext
                  (mkChatInput (txt "hello") None None None VUndefined VUndefined)))
                  true (Some (txt "Auto-approved"))).
Proof.
  split.
  - apply (proj1 (proj2 (proj2 (approval_pipeline_on_prompt
      (mkChatInput (txt "Please Approve this") None None None VUndefined VUndefined))))).
    reflexivity.
  - apply (proj2 (proj2 (proj2 (approval_pipeline_on_prompt
      (mkChatInput (txt "hello") None None None VUndefined VUndefined))))).
    reflexivity.
Defined.

(** X4. A run that the routes [/chat] and [/chat/stream] resume always
    passes the approval step, whatever the request was: [resumeWorkflow]
    approves on the user's behalf, so the step does not suspend again and
    its feedback names the route. *)
Theorem route_resumption_passes_gate (inputData : AgentContext) (route : string) :
  userApproval inputData (Some (resumeWorkflow_data route))
  = Returned ([], mkApproval inputData true (Some (txt "Resumed via " ++ txt route))).
Proof.
  unfold userApproval, resumeWorkflow_data. simpl.
  by rewrite andb_false_r.
Qed.

(** X5. A step path that the schema lets through (a list of lists of
    strings, a list of strings, a string, or nothing) is normalised to a
    flat list of strings, and normalising that list again changes
    nothing. *)
Theorem normalizeStepPath_flat (stepPath : any) :
  valid_step_path stepPath →
  Forall is_str (normalizeStepPath stepPath)
  ∧ normalizeStepPath (VArr (normalizeStepPath stepPath)) = normalizeStepPath stepPath.
Proof.
  intros Hv.
  assert (Forall is_str (normalizeStepPath stepPath)) as H.
  { destruct Hv as [|s|xs Hxs|xss Hxss].
    - repeat constructor. by eexists.
    - simpl. destruct (negb _); repeat constructor; by eexists.
    - by rewrite normalizeStepPath_strings.
    - destruct Hxss as [|x xss (xs & -> & Hxs) _]; [constructor|done]. }
  split; [done | by apply normalizeStepPath_strings].
Qed.

(** Witness for X5: the nested path [[["userApproval", "inner"]]]. *)
Lemma normalizeStepPath_flat_witness :
  normalizeStepPath (VArr (normalizeStepPath
    (VArr [VArr [VStr (txt "userApproval"); VStr (txt "inner")]])))
  = normalizeStepPath (VArr [VArr [VStr (txt "userApproval"); VStr (txt "inner")]]).
Proof.
  apply (normalizeStepPath_flat (VArr [VArr [VStr (txt "userApproval"); VStr (txt "inner")]])).
  apply step_path_nested. repeat constructor.
  eexists. split; [reflexivity|]. repeat constructor; by eexists.
Defined.

(** X6. The step that [/chat/resume/stream] resumes is the one
    [normalizeStepPath] gives, for every value.  The step that
    [/chat/resume] resumes is not: a step path that is not an array is
    replaced by ["userApproval"], so the two agree only on arrays, on what
    is absent or empty, and on the string "userApproval"; any other
    string names a step in one route and is ignored in the other. *)
Theorem resume_routes_step_paths (stepPath : any) :
  resume_stream_step stepPath = normalizeStepPath stepPath
  ∧ (resume_step stepPath = normalizeStepPath stepPath
     ↔ isArray stepPath = true ∨ truthy stepPath = false
       ∨ stepPath = VStr (txt "userApproval"))
  ∧ (∀ c s, resume_step (VStr (c :: s)) = [VStr (txt "userApproval")]
            ∧ normalizeStepPath (VStr (c :: s)) = [VStr (c :: s)]).
Proof.
  split_and!; [done| |done].
  destruct stepPath as [| |b|n|s|xs|fs]; simpl.
  - split; eauto.
  - split; eauto.
  - destruct b; simpl; [|split; eauto].
    split; [done|]. by intros [?|[?|?]].
  - destruct (Qeq_bool n 0); simpl; [split; eauto|].
    split; [done|]. by intros [?|[?|?]].
  - destruct s as [|c s]; simpl; [split; eauto|].
    split.
    + intros H. right. right. congruence.
    + intros [?|[?|H]]; try done. congruence.
  - split; eauto.
  - split; [done|]. by intros [?|[?|?]].
Qed.

(** X7. When [extractSuspendData] does not return [null], what it returns
    is the first entry of [humanInTheLoop.data], and that entry is an
    object with a run id and a step path that are not empty and with the
    state "suspended"; the context is an object as well.  Conversely a first
    entry of that kind is returned. *)
Theorem extractSuspendData_spec (parsedAdditionalContext suspendData : any) :
  suspendData ≠ VNull →
  (extractSuspendData parsedAdditionalContext = suspendData
   ↔ head (Object_values (get (get parsedAdditionalContext "humanInTheLoop") "data"))
     = Some suspendData
     ∧ truthy (get suspendData "runId") = true
     ∧ truthy (get suspendData "stepPath") = true
     ∧ get suspendData "state" = VStr (txt "suspended"))
  ∧ (extractSuspendData parsedAdditionalContext = suspendData →
     (∃ fs, suspendData = VObj fs) ∧ ∃ fs, parsedAdditionalContext = VObj fs).
Proof.
  intros Hd. split; [by apply extractSuspendData_found|].
  intros <-. destruct (extractSuspendData_object _ Hd) as [[fs Hfs] ?].
  split; [|done]. by exists fs.
Qed.

(** Witness for X7: a context with one suspended run. *)
Lemma extractSuspendData_spec_witness :
  extractSuspendData
    (resume_context (VObj [(txt "approval",
       suspended_entry (VStr (txt "run-1")) (VArr [VStr (txt "userApproval")]))]))
  = suspended_entry (VStr (txt "run-1")) (VArr [VStr (txt "userApproval")]).
Proof.
  apply (extractSuspendData_spec
    (resume_context (VObj [(txt "approval",
       suspended_entry (VStr (txt "run-1")) (VArr [VStr (txt "userApproval")]))]))
    (suspended_entry (VStr (txt "run-1")) (VArr [VStr (txt "userApproval")]))).
  - discriminate.
  - split_and!; reflexivity.
Defined.

(** X8. Only the first entry of [humanInTheLoop.data] counts: the entries
    after it never change the result, so a suspended run that comes second
    is not found when the first entry is not a suspended run. *)
Theorem extractSuspendData_first_entry_only (k : text) (entry : any)
    (others : list (text * any)) :
  extractSuspendData (resume_context (VObj ((k, entry) :: others)))
  = extractSuspendData (resume_context (VObj [(k, entry)]))
  ∧ (truthy (get entry "runId") = false →
     extractSuspendData (resume_context (VObj ((k, entry) :: others))) = VNull).
Proof.
  split.
  - unfold extractSuspendData. by rewrite !get_resume_context.
  - intros H. unfold extractSuspendData. rewrite get_resume_context.
    change (item0 (Object_values (VObj ((k, entry) :: others)))) with entry.
    by rewrite H.
Qed.

(** Witness for X8: an entry without a run id, followed by a suspended
    run. *)
Lemma extractSuspendData_first_entry_only_witness :
  extractSuspendData
    (resume_context (VObj [(txt "a", VObj [(txt "state", VStr (txt "suspended"))]);
                           (txt "b", suspended_entry (VStr (txt "run-1"))
                                       (VStr (txt "userApproval")))]))
  = VNull.
Proof.
  apply (extractSuspendData_first_entry_only (txt "a")
           (VObj [(txt "state", VStr (txt "suspended"))])).
  reflexivity.
Defined.

(** X9. [createSuspendResponse] throws exactly when the result has no
    suspended step.  Otherwise it returns a response for the run id it was
    given whose step path is the first suspended path, whatever the other
    paths are; the payload is read from the step named first in that
    path, and is [undefined] when the path is empty and no step is called
    "undefined", or when the result has nothing for that step. *)
Theorem createSuspendResponse_first_path (runId : any) (result : WorkflowResult) :
  (createSuspendResponse runId result = Thrown "TypeError" ↔ wr_suspended result = [])
  ∧ (∀ path others, wr_suspended result = path :: others →
       ∃ r, createSuspendResponse runId result = Returned r
         ∧ sr_runId r = runId ∧ sr_stepPath r = path
         ∧ sr_status r = txt "suspended"
         ∧ (∀ id rest, path = id :: rest →
              sr_suspendPayload r = get (field id (wr_steps result)) "suspendPayload")
         ∧ (path = [] → field (txt "undefined") (wr_steps result) = VUndefined →
              sr_suspendPayload r = VUndefined)
         ∧ (∀ id rest, path = id :: rest → field id (wr_steps result) = VUndefined →
              sr_suspendPayload r = VUndefined)).
Proof.
  unfold createSuspendResponse, suspend_response. split.
  - by destruct (wr_suspended result).
  - intros path others ->. eexists. split; [reflexivity|].
    cbn [sr_runId sr_stepPath sr_status sr_suspendPayload].
    split_and!; try done.
    + by intros id rest ->.
    + intros -> H. exact (f_equal (λ v, get v "suspendPayload") H).
    + intros id rest -> H. exact (f_equal (λ v, get v "suspendPayload") H).
Qed.

(** Witness for X9: a result whose only suspended step is "userApproval",
    with the payload the step left. *)
Lemma createSuspendResponse_first_path_witness :
  ∃ r, createSuspendResponse (VStr (txt "run-1"))
         (mkResult (txt "suspended") VUndefined [[txt "userApproval"]]
            [(txt "userApproval", VObj [(txt "suspendPayload", VBool true)])])
       = Returned r
    ∧ sr_stepPath r = [txt "userApproval"] ∧ sr_suspendPayload r = VBool true.
Proof.
  destruct (proj2 (createSuspendResponse_first_path (VStr (txt "run-1"))
    (mkResult (txt "suspended") VUndefined [[txt "userApproval"]]
       [(txt "userApproval", VObj [(txt "suspendPayload", VBool true)])]))
    [txt "userApproval"] [] eq_refl) as (r & Hr & _ & Hp & _ & Hpay & _).
  exists r. split_and!; [done..|].
  rewrite (Hpay (txt "userApproval") [] eq_refl). reflexivity.
Defined.

(** X10. A suspension and its resumption fit together.  When a handler
    answers a suspended run with a response, for a run id that is not
    empty, and the client sends the run id and the step path of that
    response back as the first entry of [humanInTheLoop.data] with the state
    "suspended", then [extractSuspendData] finds that entry and
    [resumeWorkflow] resumes the same run at the path that was suspended
    first, approved. *)
Theorem suspend_resume_round_trip (h : Host) (message route : string) (runId k : text)
    (result : WorkflowResult) (r : SuspendResponse) (others : list (text * any)) :
  runId ≠ [] →
  suspend_response message (VStr runId) result = Returned r →
  extractSuspendData
    (resume_context
       (VObj ((k, suspended_entry (sr_runId r) (VArr (VStr <$> sr_stepPath r))) :: others)))
  = suspended_entry (sr_runId r) (VArr (VStr <$> sr_stepPath r))
  ∧ resumeWorkflow h (suspended_entry (sr_runId r) (VArr (VStr <$> sr_stepPath r))) route
    = resume h (VStr runId) (mkResume true (Some (txt "Resumed via " ++ txt route)))
        (VStr <$> default [] (head (wr_suspended result))).
Proof.
  intros Hid Hr.
  apply suspend_response_returned in Hr as (path & rest & Hs & -> & ->).
  rewrite Hs. split.
  - apply extractSuspendData_found; [done|].
    rewrite get_resume_context. split_and!; try done.
    by destruct runId.
  - destruct (get_suspended_entry (VStr runId) (VArr (VStr <$> path))) as (Hrun & Hpath & _).
    change (resumeWorkflow h (suspended_entry (VStr runId) (VArr (VStr <$> path))) route)
      with (resume h (get (suspended_entry (VStr runId) (VArr (VStr <$> path))) "runId")
              (resumeWorkflow_data route)
              (normalizeStepPath
                 (get (suspended_entry (VStr runId) (VArr (VStr <$> path))) "stepPath"))).
    rewrite Hrun, Hpath.
    rewrite normalizeStepPath_strings by apply Forall_is_str_fmap.
    reflexivity.
Qed.

(** Witness for X10: the run "run-1" suspended at "userApproval", on a host
    whose engine reports success for every resumption. *)
Lemma suspend_resume_round_trip_witness :
  resumeWorkflow
    (mkHost (λ _, Returned VNull)
       (λ _ _ _, Returned (mkResult (txt "success") VNull [] []))
       (λ _, Thrown "never"))
    (suspended_entry (VStr (txt "run-1")) (VArr [VStr (txt "userApproval")])) "chat"
  = Returned (mkResult (txt "success") VNull [] []).
Proof.
  apply (suspend_resume_round_trip
    (mkHost (λ _, Returned VNull)
       (λ _ _ _, Returned (mkResult (txt "success") VNull [] []))
       (λ _, Thrown "never"))
    "Workflow suspended - approval required" "chat" (txt "run-1") (txt "approval")
    (mkResult (txt "suspended") VUndefined [[txt "userApproval"]] [])
    (mkSuspendResponse (txt "humanInTheLoop") (txt "suspended") (VStr (txt "run-1"))
       [txt "userApproval"] VUndefined (txt "Workflow suspended - approval required")) []).
  - discriminate.
  - reflexivity.
Defined.

(** X11. When the additional context of a request to [/chat] carries a
    suspended run, the handler makes exactly one call into the workflow
    engine: it resumes the run the suspend data names, at the normalised
    step path, approved and with the feedback "Resumed via chat".  It
    starts no run, and its answer is read off the result of that
    resumption, so it depends on no other field of the request.  Without
    suspend data the one call starts a new run with the fields of the
    request and no stream controller. *)
Theorem chat_resumes_suspended_run (h : Host) (body : ChatInput) (parsed : any) :
  parseAdditionalContext h (additionalContext body) = Returned parsed →
  (extractSuspendData parsed ≠ VNull →
     (chat_handler h body).1
     = [Resume (get (extractSuspendData parsed) "runId")
          (mkResume true (Some (txt "Resumed via chat")))
          (normalizeStepPath (get (extractSuspendData parsed) "stepPath"))]
     ∧ (chat_handler h body).2
       = match resume h (get (extractSuspendData parsed) "runId")
                 (mkResume true (Some (txt "Resumed via chat")))
                 (normalizeStepPath (get (extractSuspendData parsed) "stepPath")) with
         | Thrown e => Error500 (Caught e) None
         | Returned result =>
             if bool_decide (wr_status result = txt "success")
             then ChatOutput (wr_result result)
             else if bool_decide (wr_status result = txt "suspended") then
               answer_suspended
                 (createSuspendResponse (get (extractSuspendData parsed) "runId") result)
             else
               Error500 (Unexpected (txt "Resume failed with status: " ++ wr_status result))
                 (Some result)
         end
     ∧ ∀ body', additionalContext body' = additionalContext body →
         chat_handler h body' = chat_handler h body)
  ∧ (extractSuspendData parsed = VNull →
     (chat_handler h body).1
     = [Start (mkChatInput (prompt body) (temperature body) (maxTokens body)
                 (systemPrompt body) VUndefined (additionalContext body))]).
Proof.
  intros Hp. split.
  - intros Hd. rewrite (chat_handler_resumes h body parsed Hp Hd).
    split_and!; try done.
    intros body' Hb. rewrite <- Hb in Hp.
    by rewrite (chat_handler_resumes h body' parsed Hp Hd).
  - by apply chat_handler_starts.
Qed.

(** Witness for X11: a request whose context carries the suspended run
    "run-1", on a host whose engine reports success for a resumption and
    throws when a run is started. *)
Lemma chat_resumes_suspended_run_witness :
  chat_handler
    (mkHost (λ _, Thrown "SyntaxError")
       (λ _ _ _, Returned (mkResult (txt "success") (VStr (txt "done")) [] []))
       (λ _, Thrown "started"))
    (mkChatInput (txt "one") None None None VUndefined
       (resume_context (VObj [(txt "approval",
          suspended_entry (VStr (txt "run-1")) (VStr (txt "userApproval")))])))
  = ([Resume (VStr (txt "run-1")) (mkResume true (Some (txt "Resumed via chat")))
        [VStr (txt "userApproval")]],
     ChatOutput (VStr (txt "done"))).
Proof.
  destruct (proj1 (chat_resumes_suspended_run
    (mkHost (λ _, Thrown "SyntaxError")
       (λ _ _ _, Returned (mkResult (txt "success") (VStr (txt "done")) [] []))
       (λ _, Thrown "started"))
    (mkChatInput (txt "one") None None None VUndefined
       (resume_context (VObj [(txt "approval",
          suspended_entry (VStr (txt "run-1")) (VStr (txt "userApproval")))])))
    (resume_context (VObj [(txt "approval",
       suspended_entry (VStr (txt "run-1")) (VStr (txt "userApproval")))]))
    eq_refl)) as (Hcalls & Hanswer & _).
  - vm_compute. discriminate.
  - rewrite (surjective_pairing (chat_handler _ _)), Hcalls, Hanswer. reflexivity.
Defined.

(** X12. [/chat/resume] answers with status 200 exactly when the resumed
    run succeeds or the resumption throws: an error of the engine is
    answered as a chat output, not as an error, and a run that suspends again
    is answered with status 500.  After an error the content depends on the
    resume data alone: a denial is reported as such, an approval with the
    feedback or, when that is absent or empty, with "No feedback
    provided". *)
Theorem chat_resume_masks_errors (h : Host) (runId : text) (stepPath : any)
    (resumeData : ResumeData) :
  (is_ok (chat_resume_handler h runId stepPath resumeData) = true
   ↔ (∃ e, resume h (VStr runId) resumeData (resume_step stepPath) = Thrown e)
     ∨ (∃ result, resume h (VStr runId) resumeData (resume_step stepPath) = Returned result
                  ∧ wr_status result = txt "success"))
  ∧ (∀ e, resume h (VStr runId) resumeData (resume_step stepPath) = Thrown e →
       chat_resume_handler h runId stepPath resumeData
       = ChatOutput (VObj [(txt "content", VStr (
           if rd_approved resumeData then
             txt "Request approved and processed. Feedback: "
             ++ (if bool_decide (default [] (rd_feedback resumeData) = [])
                 then txt "No feedback provided"
                 else default [] (rd_feedback resumeData))
           else txt "Request was denied by the user."))])).
Proof.
  unfold chat_resume_handler. split.
  - destruct (resume h _ _ _) as [result|e].
    + case_bool_decide as Hs; simpl.
      * split; [|done]. intros _. right. eauto.
      * split; [done|]. intros [[e [=]]|(r' & [= <-] & ?)]. done.
    + split; [intros _; left; eauto|]. intros _. by destruct (rd_approved resumeData).
  - intros e ->. destruct (rd_approved resumeData); [|done].
    by destruct (rd_feedback resumeData) as [[|c f]|].
Qed.

(** X13. One render of [DiffText] returns one entry for each part of the
    diff.  The keys of the children it renders are pairwise distinct,
    because each key carries the index of its part; the prefix of the key
    tells the class of the part, and the element shows the text of the
    part. *)
Theorem rendered_keys_are_distinct (p : DiffTextProps) (rp : gset nat) :
  length (DiffText p rp) = length (changes_of p)
  ∧ NoDup (rendered_keys (DiffText p rp))
  ∧ ∀ i k e, DiffText p rp !! i = Some (Some (k, e)) →
      key_index k = i
      ∧ ∃ part, changes_of p !! i = Some part ∧ element_text e = value part
          ∧ k = match kind_of part with
                | Added => KAdded i
                | Removed => KRemoved i
                | Unchanged => KUnchanged i
                end.
Proof.
  assert (∀ i k e, DiffText p rp !! i = Some (Some (k, e)) →
      key_index k = i
      ∧ ∃ part, changes_of p !! i = Some part ∧ element_text e = value part
          ∧ k = match kind_of part with
                | Added => KAdded i
                | Removed => KRemoved i
                | Unchanged => KUnchanged i
                end) as H.
  { intros i k e (part & Hpart & Hr)%DiffText_lookup. symmetry in Hr.
    apply render_part_key in Hr as (? & ? & ?). split; [done|]. by exists part. }
  split_and!; [|apply (rendered_keys_NoDup _ 0%nat)|done].
  - unfold DiffText, render_changes. by rewrite length_imap.
  - intros i k e Hi. by destruct (H i k e Hi).
Qed.

(** X14. With [animateChanges] off, at the mount and in every render that
    follows, nothing is ever animated: the frame loop stays empty, no motion
    value is set, no completion callback is called, and every child is a
    plain [span] that shows the whole text of its part. *)
Theorem static_mode_never_animates (t0 : Q) (p : DiffTextProps) (evs : list event) :
  animateChanges_of p = false →
  Forall keeps_static evs →
  frame_loop (rt (run (mount t0 p) evs)) = []
  ∧ updates (rt (run (mount t0 p) evs)) = []
  ∧ completions (rt (run (mount t0 p) evs)) = []
  ∧ ∀ c i ch, mounted (run (mount t0 p) evs) = Some c →
      children c !! i = Some (Some ch) →
      ∃ k st part, changes_of (props c) !! i = Some part ∧ ch = ISpan k st (value part).
Proof.
  intros Han Hevs.
  pose proof (run_ok evs _ (mount_ok t0 p)) as Hok.
  destruct (mount_fields t0 p) as (_ & Hcomp & Hupd & [cs Hm] & _).
  destruct (static_run evs (mount t0 p) (mount_ok t0 p)) as (Hu & Hc & Hstatic); [|done|].
  { rewrite Hm. by intros c [= <-]. }
  split_and!.
  - destruct (mounted (run (mount t0 p) evs)) as [c|] eqn:Hm'.
    + apply (static_loop _ c); [done..|]. by apply Hstatic.
    + by apply world_loop_unmounted.
  - by rewrite Hu.
  - by rewrite Hc.
  - intros c i ch Hm' Hch.
    destruct (static_children _ c Hok Hm' (Hstatic c Hm') i ch Hch) as (k & st & s & ->).
    pose proof Hok as [_ _ Htree]. rewrite Hm' in Htree.
    destruct Htree as (_ & _ & Hview & _).
    assert (DiffText (props c) (removedParts c) !! i = Some (Some (k, Span st s))) as Hd
      by (rewrite <- Hview, list_lookup_fmap, Hch; done).
    apply DiffText_lookup in Hd as (part & Hpart & Hr). symmetry in Hr.
    apply render_part_key in Hr as (_ & Ht & _). simpl in Ht. subst s.
    by exists k, st, part.
Qed.

(** Witness for X14: "ab" becomes "ac" with [animateChanges] off; frames
    come and the parent renders again. *)
Lemma static_mode_never_animates_witness :
  updates (rt (run (mount 0 (mkProps (txt "ab") (txt "ac") (Some Chars) None (Some false) None))
                 [Frame 1;
                  SetProps (mkProps (txt "ab") (txt "ad") (Some Chars) None (Some false) None);
                  Frame 2])) = [].
Proof.
  apply (static_mode_never_animates 0
           (mkProps (txt "ab") (txt "ac") (Some Chars) None (Some false) None)).
  - reflexivity.
  - repeat constructor.
Defined.
